(** * fork-and-import.js: the repository-migration orchestrator

    A shallow embedding of [.github/lib/fork-and-import.js] (the current
    variant, the one that creates independent repositories with a bare clone
    and a mirror push) and the properties of it that the specification
    states.

    Conventions of the embedding.
    - JavaScript strings are [string]; every token the script matches on is
      ASCII.
    - Arrays are lists; a JSON object iterated with [Object.entries] is an
      association list in iteration order.
    - Every [execSync], every [fs.writeFileSync] that succeeds and every
      timer is an event appended to a trace; whether a call succeeds, and what
      it returns, is decided by an oracle (the [World]) that sees the whole
      history so far.
    - [process.exit] is an outcome of its own: no [catch] intercepts it and no
      [finally] runs after it.
    - [await] is sequencing: the script never has two things in flight.
    - [console.*] output is not modelled, nor is what only feeds it (step 5 of
      [main] and [generateTerraformTargets]); the command line is taken after
      parsing. *)

From Stdlib Require Import String Ascii List Bool Arith Lia Permutation.
Import ListNotations.
Local Open Scope list_scope.
Local Open Scope string_scope.

(** ** Strings *)

Definition dquote : string := String (ascii_of_nat 34) EmptyString.
Definition newline : string := String (ascii_of_nat 10) EmptyString.

(** [s.startsWith(p)] *)
Definition startsWith (p s : string) : bool := String.prefix p s.

(** The rest of [s] after the prefix [p], when [s] starts with [p]. *)
Fixpoint stripPrefix (p s : string) : option string :=
  match p with
  | EmptyString => Some s
  | String a p' =>
      match s with
      | EmptyString => None
      | String b s' => if Ascii.eqb a b then stripPrefix p' s' else None
      end
  end.

(** [s.replace(/^old/, new)] for a literal [old] and a replacement without
    [$]: the anchored pattern matches at offset 0 or nowhere. *)
Definition replacePrefix (old new s : string) : string :=
  match stripPrefix old s with
  | Some rest => new ++ rest
  | None => s
  end.

(** [s.includes(needle)] *)
Fixpoint includes (needle s : string) : bool :=
  if String.prefix needle s then true
  else match s with
       | EmptyString => false
       | String _ s' => includes needle s'
       end.

(** [s.replaceAll(pat, rep)] for a string pattern: occurrences are found left
    to right and do not overlap.  [skip] counts the characters of the
    occurrence just replaced that are still to be dropped. *)
Fixpoint replaceAll_from (pat rep : string) (skip : nat) (s : string) : string :=
  match s with
  | EmptyString => EmptyString
  | String c s' =>
      match skip with
      | S k => replaceAll_from pat rep k s'
      | O =>
          if String.prefix pat s
          then rep ++ replaceAll_from pat rep (String.length pat - 1) s'
          else String c (replaceAll_from pat rep 0 s')
      end
  end.

(** With the empty pattern JavaScript inserts the replacement between all
    code units and at both ends. *)
Fixpoint intersperse (rep s : string) : string :=
  match s with
  | EmptyString => rep
  | String c s' => rep ++ String c (intersperse rep s')
  end.

Definition replaceAll (pat rep s : string) : string :=
  match pat with
  | EmptyString => intersperse rep s
  | _ => replaceAll_from pat rep 0 s
  end.

(** [arr.includes(x)] on an array of strings *)
Definition arrIncludes (arr : list string) (x : string) : bool :=
  existsb (String.eqb x) arr.

(** [arr.join('\n')] *)
Definition joinLines (blocks : list string) : string :=
  String.concat newline blocks.

(** ** Data model *)

(** One entry of [resource.github_repository]; only [name] is read. *)
Record ResourceConfig := { cfg_name : string }.

(** The parsed [cdk.tf.json]: [resource] may be missing, and so may any
    resource type under it. *)
Record CdkTfJson := {
  resource : option (list (string * list (string * ResourceConfig)))
}.

(** The objects [parseCdkTfJson] pushes. *)
Record Repo := {
  resourceName : string;
  name : string;
  sourceName : string
}.

(** The objects the probe loop pushes: [{...repo, sourceExists,
    targetExists, action}]. *)
Record Probed := {
  repo :> Repo;
  sourceExists : bool;
  targetExists : bool;
  action : string
}.

Fixpoint lookup {A : Type} (k : string) (l : list (string * A)) : option A :=
  match l with
  | [] => None
  | (k', v) :: l' => if String.eqb k k' then Some v else lookup k l'
  end.

(** ** Pure functions of the script *)

Definition getSourceRepoName (targetRepoName : string) : string :=
  replacePrefix "cdktn-" "cdktf-" targetRepoName.

(** [cdkTfJson.resource?.github_repository || {}] *)
Definition githubRepos (cdkTfJson : CdkTfJson) : list (string * ResourceConfig) :=
  match resource cdkTfJson with
  | None => []
  | Some types =>
      match lookup "github_repository" types with
      | None => []
      | Some instances => instances
      end
  end.

Definition parseCdkTfJson (cdkTfJson : CdkTfJson) : list Repo :=
  map (fun entry : string * ResourceConfig =>
         let targetName := cfg_name (snd entry) in
         let sourceName := getSourceRepoName targetName in
         {| resourceName := fst entry;
            name := targetName;
            sourceName := sourceName |})
      (githubRepos cdkTfJson).

(** [onlyRepos] is [null] or an array, [excludeRepos] an array.  The warning
    about names that were not found only logs. *)
Definition filterRepositories (repos : list Repo)
    (onlyRepos : option (list string)) (excludeRepos : list string) : list Repo :=
  let filtered :=
    match onlyRepos with
    | Some only =>
        if Nat.ltb 0 (List.length only)
        then filter (fun repo => arrIncludes only (name repo)) repos
        else repos
    | None => repos
    end in
  if Nat.ltb 0 (List.length excludeRepos)
  then filter (fun repo => negb (arrIncludes excludeRepos (name repo))) filtered
  else filtered.

Definition header (now : string) : list string :=
  [ "# Generated by fork-and-import.js";
    "# Generated at: " ++ now;
    "# Import blocks for forked GitHub repositories";
    EmptyString;
    "# Only repository resources are imported. Other resources (labels, webhooks, etc.)";
    "# will be created fresh by Terraform, which is acceptable for settings.";
    EmptyString ].

Definition importBlock (repo : Probed) : list string :=
  if String.eqb (action repo) "fork"
  then [ "import {";
         "  to = github_repository." ++ resourceName repo;
         "  id = " ++ dquote ++ name repo ++ dquote;
         "}";
         EmptyString ]
  else [].

Definition freshNote (repos : list Probed) : list string :=
  let freshRepos := filter (fun r => String.eqb (action r) "create-fresh") repos in
  if Nat.ltb 0 (List.length freshRepos)
  then ("# The following repositories will be created fresh (not imported):"
          :: map (fun repo : Probed => ("#   - " ++ name repo)%string) freshRepos
          ++ [EmptyString])%list
  else [].

(** The array [blocks] of [generateImportBlocks]; [now] is the value of
    [new Date().toISOString()]. *)
Definition importLines (now : string) (repos : list Probed) : list string :=
  (header now ++ flat_map importBlock repos ++ freshNote repos)%list.

Definition generateImportBlocks (now : string) (repos : list Probed) : string :=
  joinLines (importLines now repos).

(** ** Effects *)

(** The commands the script hands to [execSync]. *)
Inductive Cmd : Type :=
| GhApiRepo (org repoName : string)
    (* gh api /repos/<org>/<repoName> --silent *)
| GhRepoCreate (repoName : string)
    (* gh repo create cdktn-io/<repoName> --public *)
| GhRepoDelete (repoName : string)
    (* gh repo delete cdktn-io/<repoName> --yes *)
| GhActionsPermissions (repoName : string) (enabled : bool)
    (* gh api -X PUT /repos/cdktn-io/<repoName>/actions/permissions *)
| GhWorkflowPermissions (repoName : string)
    (* gh api -X PUT /repos/cdktn-io/<repoName>/actions/permissions/workflow,
       with can_approve_pull_request_reviews set *)
| Mktemp
    (* mktemp -d *)
| GitCloneBare (sourceRepoName : string)
    (* git clone --bare https://github.com/cdktf/<sourceRepoName>.git repo.git *)
| GitRemoteAdd (targetRepoName : string)
    (* git remote add cdktn-io https://github.com/cdktn-io/<targetRepoName>.git *)
| GitPushMirror
    (* git push --mirror cdktn-io *)
| RmRf (dir : string)
    (* rm -rf <dir> *)
| GhRepoClone (repoName : string)
    (* gh repo clone cdktn-io/<repoName> . -- --quiet *)
| FindWorkflows
    (* find .github/workflows -name "*.yml" 2>/dev/null || true *)
| GitConfigUserName
| GitConfigUserEmail
| GitAddWorkflows
    (* git add .github/workflows/*.yml *)
| GitCommit
| GitPushMain.
    (* git push origin main --quiet *)

Inductive Event : Type :=
| Exec (c : Cmd)
| WriteFile (path content : string)
| Sleep (ms : nat).

(** The state the script threads: everything it has done so far, and the
    process working directory that [process.chdir] mutates. *)
Record St := {
  trace : list Event;
  cwd : string
}.

(** The environment.  Each answer may depend on the whole state, so that a
    repository can come into existence after it was created, a file can
    change after it was written, and so on. *)
Record World := {
  exec_ok : St -> Cmd -> bool;           (* does the command exit with 0 *)
  exec_out : St -> Cmd -> string;        (* its standard output *)
  read_file : St -> string -> option string;  (* None: readFileSync throws *)
  write_ok : St -> string -> bool;       (* does writeFileSync succeed *)
  clock : St -> string                   (* new Date().toISOString() *)
}.

Inductive Outcome (A : Type) : Type :=
| Val (a : A)
| Throw (message : string)
| Exit (code : nat).

Arguments Val {A} a.
Arguments Throw {A} message.
Arguments Exit {A} code.

Definition M (A : Type) : Type := St -> Outcome A * St.

Definition ret {A : Type} (a : A) : M A := fun s => (Val a, s).

Definition bind {A B : Type} (m : M A) (k : A -> M B) : M B :=
  fun s =>
    match m s with
    | (Val a, s') => k a s'
    | (Throw e, s') => (Throw e, s')
    | (Exit c, s') => (Exit c, s')
    end.

Notation "x <- c1 ;; c2" := (bind c1 (fun x => c2))
  (at level 61, c1 at next level, right associativity).
Notation "c1 ;; c2" := (bind c1 (fun _ => c2))
  (at level 61, right associativity).

Definition throw {A : Type} (e : string) : M A := fun s => (Throw e, s).

(** [process.exit(code)] *)
Definition exit {A : Type} (code : nat) : M A := fun s => (Exit code, s).

(** [try { m } catch (err) { h err }] *)
Definition tryCatch {A : Type} (m : M A) (h : string -> M A) : M A :=
  fun s =>
    match m s with
    | (Throw e, s') => h e s'
    | r => r
    end.

(** [try { m } finally { f }]: [f] runs after a value and after an
    exception, and what it throws replaces the outcome of [m]. *)
Definition tryFinally {A : Type} (m : M A) (f : M unit) : M A :=
  fun s =>
    match m s with
    | (Exit c, s') => (Exit c, s')
    | (o, s') =>
        match f s' with
        | (Val _, s'') => (o, s'')
        | (Throw e, s'') => (Throw e, s'')
        | (Exit c, s'') => (Exit c, s'')
        end
    end.

Definition log (e : Event) (s : St) : St :=
  {| trace := (trace s ++ [e])%list; cwd := cwd s |}.

Definition sleep (ms : nat) : M unit := fun s => (Val tt, log (Sleep ms) s).

Definition getCwd : M string := fun s => (Val (cwd s), s).

(** [process.chdir(dir)]; the directories the script enters exist. *)
Definition chdir (dir : string) : M unit :=
  fun s =>
    (Val tt,
     {| trace := trace s;
        cwd := if startsWith "/" dir then dir else cwd s ++ "/" ++ dir |}).

(** ASCII white space, as [String.prototype.trim] removes it. *)
Definition isSpace (c : ascii) : bool :=
  let n := nat_of_ascii c in
  (Nat.eqb n 32 || (Nat.leb 9 n && Nat.leb n 13))%bool.

Fixpoint trimStart (s : string) : string :=
  match s with
  | EmptyString => EmptyString
  | String c s' => if isSpace c then trimStart s' else s
  end.

Fixpoint trimEnd (s : string) : string :=
  match s with
  | EmptyString => EmptyString
  | String c s' =>
      match trimEnd s' with
      | EmptyString => if isSpace c then EmptyString else String c EmptyString
      | t => String c t
      end
  end.

Definition trim (s : string) : string := trimEnd (trimStart s).

(** [s.split('\n')] *)
Fixpoint splitLines (s : string) : list string :=
  match s with
  | EmptyString => [EmptyString]
  | String c s' =>
      if Ascii.eqb c (ascii_of_nat 10) then EmptyString :: splitLines s'
      else match splitLines s' with
           | [] => [String c EmptyString]
           | l :: ls => String c l :: ls
           end
  end.

Definition nonEmpty (f : string) : bool :=
  match f with EmptyString => false | _ => true end.

Section Script.

Variable w : World.

(** [execSync(cmd).toString()]; a non-zero exit status throws. *)
Definition execSync (c : Cmd) : M string :=
  fun s =>
    if exec_ok w s c then (Val (exec_out w s c), log (Exec c) s)
    else (Throw "Command failed", log (Exec c) s).

(** [fs.readFileSync(path, 'utf8')] *)
Definition readFileSync (path : string) : M string :=
  fun s =>
    match read_file w s path with
    | Some content => (Val content, s)
    | None => (Throw "ENOENT", s)
    end.

(** [fs.writeFileSync(path, content)] *)
Definition writeFileSync (path content : string) : M unit :=
  fun s =>
    if write_ok w s path then (Val tt, log (WriteFile path content) s)
    else (Throw "EACCES", s).

Definition now : M string := fun s => (Val (clock w s), s).

Definition checkSourceRepo (sourceRepoName : string) : M bool :=
  tryCatch
    (execSync (GhApiRepo "cdktf" sourceRepoName) ;;
     ret true)
    (fun _ => ret false).

Definition checkTargetRepo (repoName : string) : M bool :=
  tryCatch
    (execSync (GhApiRepo "cdktn-io" repoName) ;;
     ret true)
    (fun _ => ret false).

(** The polling loop of [createEmptyRepository]; [remaining] is
    [maxAttempts - attempts]. *)
Fixpoint pollUntilAccessible (targetRepoName : string) (remaining : nat) : M bool :=
  match remaining with
  | O => throw "Repository creation timeout after 20 seconds"
  | S k =>
      r <- tryCatch
             (execSync (GhApiRepo "cdktn-io" targetRepoName) ;;
              ret (Some true))
             (fun _ => sleep 2000 ;; ret None) ;;
      match r with
      | Some b => ret b
      | None => pollUntilAccessible targetRepoName k
      end
  end.

Definition maxAttempts : nat := 10.

Definition createEmptyRepository (targetRepoName : string) : M bool :=
  tryCatch
    (execSync (GhRepoCreate targetRepoName) ;;
     pollUntilAccessible targetRepoName maxAttempts)
    (fun err => throw err).

Definition disableGitHubActions (targetRepoName : string) : M unit :=
  tryCatch
    (execSync (GhActionsPermissions targetRepoName false) ;;
     ret tt)
    (fun _ => ret tt).

Definition enableGitHubActions (targetRepoName : string) : M unit :=
  tryCatch
    (execSync (GhActionsPermissions targetRepoName true) ;;
     ret tt)
    (fun _ => ret tt).

Definition enableActionsToApprovePRs (targetRepoName : string) : M unit :=
  tryCatch
    (execSync (GhWorkflowPermissions targetRepoName) ;;
     ret tt)
    (fun _ => ret tt).

Definition migrateRepositoryHistory (sourceRepoName targetRepoName : string) : M unit :=
  out <- execSync Mktemp ;;
  let tempDir := trim out in
  originalDir <- getCwd ;;
  tryFinally
    (tryCatch
       (chdir tempDir ;;
        execSync (GitCloneBare sourceRepoName) ;;
        chdir "repo.git" ;;
        execSync (GitRemoteAdd targetRepoName) ;;
        execSync GitPushMirror ;;
        ret tt)
       (fun err => throw err))
    (chdir originalDir ;;
     execSync (RmRf tempDir) ;;
     ret tt).

Definition createIndependentRepository (sourceRepoName targetRepoName : string) : M bool :=
  tryCatch
    (createEmptyRepository targetRepoName ;;
     disableGitHubActions targetRepoName ;;
     migrateRepositoryHistory sourceRepoName targetRepoName ;;
     ret true)
    (fun err =>
       tryCatch
         (execSync (GhRepoDelete targetRepoName) ;;
          ret tt)
         (fun _ => ret tt) ;;
       throw err).

Definition OLD_TEAM : string := "team-tf-cdk".
Definition OLD_EMAIL : string := "github-team-tf-cdk@hashicorp.com".
Definition NEW_TEAM : string := "team-cdk-terrain[bot]".
Definition APP_USER_ID : string := "254218809".
Definition NEW_EMAIL : string :=
  "<" ++ APP_USER_ID ++ "-" ++ NEW_TEAM ++ "@users.noreply.github.com>".

Definition codeOwnersFile : string := ".github/CODEOWNERS".

(** The loop over [workflowFiles] in [fixTeamNames]. *)
Fixpoint fixWorkflowFiles (workflowFiles : list string) (filesChanged : nat) : M nat :=
  match workflowFiles with
  | [] => ret filesChanged
  | file :: rest =>
      filesChanged' <-
        tryCatch
          (content <- readFileSync file ;;
           if (includes OLD_TEAM content || includes OLD_EMAIL content)%bool
           then
             let newContent :=
               replaceAll OLD_EMAIL NEW_EMAIL (replaceAll OLD_TEAM NEW_TEAM content) in
             writeFileSync file newContent ;;
             ret (S filesChanged)
           else ret filesChanged)
          (fun _ => ret filesChanged) ;;
      fixWorkflowFiles rest filesChanged'
  end.

Definition fixTeamNames (repoName : string) : M unit :=
  tryCatch
    (out <- execSync Mktemp ;;
     let tempDir := trim out in
     originalDir <- getCwd ;;
     tryFinally
       (chdir tempDir ;;
        execSync (GhRepoClone repoName) ;;
        filesChanged <-
          tryCatch
            (content <- readFileSync codeOwnersFile ;;
             let newContent :=
               replaceAll "@cdktf/tf-cdk-team" "@cdktn-io/team-cdk-terrain" content in
             writeFileSync codeOwnersFile newContent ;;
             ret 1)
            (fun _ => ret 0) ;;
        found <- execSync FindWorkflows ;;
        let workflowFiles := filter nonEmpty (splitLines (trim found)) in
        if Nat.eqb (List.length workflowFiles) 0 then ret tt
        else
          filesChanged <- fixWorkflowFiles workflowFiles filesChanged ;;
          if Nat.eqb filesChanged 0 then ret tt
          else
            execSync GitConfigUserName ;;
            execSync GitConfigUserEmail ;;
            execSync GitAddWorkflows ;;
            execSync GitCommit ;;
            execSync GitPushMain ;;
            ret tt)
       (chdir originalDir ;;
        execSync (RmRf tempDir) ;;
        ret tt))
    (fun _ => ret tt).

(** ** The main flow *)

(** The command line after parsing (the top of the script). *)
Record Args := {
  dryRun : bool;
  stackDir : option string;
  onlyRepos : option (list string);
  excludeRepos : list string
}.

(** What is at [<stackDir>/cdk.tf.json]. *)
Inductive SnapshotFile : Type :=
| Missing
| Malformed
| Parsed (cdkTfJson : CdkTfJson).

Record Input := {
  args : Args;
  stackDirExists : bool;
  cdkTfJsonFile : SnapshotFile
}.

(** Step 2 of [main]: the loop over [filteredRepos], with the two variables
    it updates. *)
Fixpoint probeLoop (filteredRepos : list Repo) (results : list Probed)
    (hasConflicts : bool) : M (list Probed * bool) :=
  match filteredRepos with
  | [] => ret (results, hasConflicts)
  | repo :: rest =>
      sourceExists <- checkSourceRepo (sourceName repo) ;;
      targetExists <- checkTargetRepo (name repo) ;;
      let hasConflicts := if targetExists then true else hasConflicts in
      probeLoop rest
        (results ++
           [ {| repo := repo;
                sourceExists := sourceExists;
                targetExists := targetExists;
                action := if sourceExists then "fork" else "create-fresh" |} ])%list
        hasConflicts
  end.

Definition isFork (r : Probed) : bool := String.eqb (action r) "fork".

(** Step 3 of [main]: the loop [for (let i = 0; i < toFork.length; i++)];
    [total] is [toFork.length] and the list holds [toFork[i..]]. *)
Fixpoint forkLoop (i total : nat) (toFork : list Probed) : M unit :=
  match toFork with
  | [] => ret tt
  | repo :: rest =>
      tryCatch
        (createIndependentRepository (sourceName repo) (name repo) ;;
         fixTeamNames (name repo) ;;
         enableGitHubActions (name repo) ;;
         if Nat.ltb i (total - 1) then sleep 5000 else ret tt)
        (fun _ => exit 1) ;;
      forkLoop (S i) total rest
  end.

(** [path.join(dir, file)], without its normalisation. *)
Definition pathJoin (dir file : string) : string := dir ++ "/" ++ file.

(** Step 3 of [main]: create the independent repositories, only with
    [--yes]. *)
Definition migrateAll (inp : Input) (results : list Probed) : M unit :=
  if negb (dryRun (args inp))
  then
    let toFork := filter isFork results in
    if Nat.eqb (List.length toFork) 0 then ret tt
    else forkLoop 0 (List.length toFork) toFork
  else ret tt.

(** Step 4 of [main]: generate [import.tf]. *)
Definition writeImport (dir : string) (results : list Probed) : M unit :=
  stamp <- now ;;
  writeFileSync (pathJoin dir "import.tf") (generateImportBlocks stamp results) ;;
  ret tt.

(** Steps 1 and 2 of [main] and the two exits before step 3.  Step 5 only
    prints. *)
Definition main (inp : Input) (dir : string) : M unit :=
  cdkTfJson <- match cdkTfJsonFile inp with
               | Parsed j => ret j
               | _ => throw "JSON.parse"
               end ;;
  let repos := parseCdkTfJson cdkTfJson in
  let filteredRepos :=
    filterRepositories repos (onlyRepos (args inp)) (excludeRepos (args inp)) in
  if Nat.eqb (List.length filteredRepos) 0 then exit 0
  else
    probed <- probeLoop filteredRepos [] false ;;
    let results := fst probed in
    let hasConflicts := snd probed in
    if hasConflicts then exit 1
    else
      migrateAll inp results ;;
      writeImport dir results.

(** The whole script: the checks at the top of the file, then
    [main().catch(... process.exit(1))]. *)
Definition script (inp : Input) : M unit :=
  match stackDir (args inp) with
  | None => exit 1
  | Some dir =>
      if (match onlyRepos (args inp) with Some _ => true | None => false end
          && Nat.ltb 0 (List.length (excludeRepos (args inp))))%bool
      then exit 1
      else if negb (stackDirExists inp) then exit 1
      else
        match cdkTfJsonFile inp with
        | Missing => exit 1
        | _ => tryCatch (main inp dir) (fun _ => exit 1)
        end
  end.

End Script.

Definition initial : St := {| trace := []; cwd := "/work" |}.

(** The exit status of the process and what it did. *)
Definition exitCode {A : Type} (o : Outcome A) : nat :=
  match o with
  | Val _ => 0
  | Throw _ => 1
  | Exit c => c
  end.

Definition run (w : World) (inp : Input) : nat * list Event :=
  let r := script w inp initial in
  (exitCode (fst r), trace (snd r)).

(** ** The command line and the target flags *)

(** [s.split(sep)] for a separator of one character. *)
Fixpoint splitOn (sep : ascii) (s : string) : list string :=
  match s with
  | EmptyString => [EmptyString]
  | String c s' =>
      if Ascii.eqb c sep then EmptyString :: splitOn sep s'
      else match splitOn sep s' with
           | [] => [String c EmptyString]
           | l :: ls => String c l :: ls
           end
  end.

(** [flag.split('=')[1].split(',').map(s => s.trim())] *)
Definition flagNames (flag : string) : list string :=
  map trim (splitOn "," (nth 1 (splitOn "=" flag) EmptyString)).

(** The top of the script, on [args = process.argv.slice(2)]. *)
Definition parseArgs (argv : list string) : Args :=
  let onlyFlag := find (startsWith "--only=") argv in
  let excludeFlag := find (startsWith "--exclude=") argv in
  {| dryRun := negb (arrIncludes argv "--yes");
     stackDir := find (fun arg => negb (startsWith "--" arg)) argv;
     onlyRepos := match onlyFlag with
                  | Some flag => Some (flagNames flag)
                  | None => None
                  end;
     excludeRepos := match excludeFlag with
                     | Some flag => flagNames flag
                     | None => []
                     end |}.

(** The script started with the arguments [argv]. *)
Definition invoke (argv : list string) (stackDirExists : bool)
    (cdkTfJsonFile : SnapshotFile) : Input :=
  {| args := parseArgs argv;
     stackDirExists := stackDirExists;
     cdkTfJsonFile := cdkTfJsonFile |}.

(** The test [repoNames.some(repoName => resourceName.startsWith(`${repoName}_`))]
    of [generateTerraformTargets]. *)
Definition matchesFilteredRepo (repoNames : list string) (resourceName : string) : bool :=
  existsb (fun repoName => startsWith (repoName ++ "_") resourceName) repoNames.

Definition generateTerraformTargets (cdkTfJson : CdkTfJson)
    (filteredRepos : list Repo) : list string :=
  let repoNames := map name filteredRepos in
  let resources := match resource cdkTfJson with
                   | Some types => types
                   | None => []
                   end in
  flat_map
    (fun typeEntry : string * list (string * ResourceConfig) =>
       let resourceType := fst typeEntry in
       flat_map
         (fun instance : string * ResourceConfig =>
            let resourceName := fst instance in
            if matchesFilteredRepo repoNames resourceName
            then ["-target=" ++ resourceType ++ "." ++ resourceName]
            else [])
         (snd typeEntry))
    resources.

(** ** Vocabulary of the statements *)

(** [emits P m]: whatever happens, [m] only appends events to the trace, and
    every event it appends satisfies [P]. *)
Definition emits {A : Type} (P : Event -> Prop) (m : M A) : Prop :=
  forall s, exists t, trace (snd (m s)) = (trace s ++ t)%list /\ Forall P t.

(** [noExit m]: [m] never ends the process. *)
Definition noExit {A : Type} (m : M A) : Prop :=
  forall s c, fst (m s) <> Exit c.

(** The invariant of the data model: the action is [fork] exactly when the
    source exists. *)
Definition wellClassified (r : Probed) : Prop :=
  action r = (if sourceExists r then "fork" else "create-fresh").

(** The two queries the probe loop makes for a descriptor. *)
Definition probesOf (repo : Repo) : list Event :=
  [ Exec (GhApiRepo "cdktf" (sourceName repo));
    Exec (GhApiRepo "cdktn-io" (name repo)) ].

(** The read-only existence query. *)
Definition isProbe (e : Event) : Prop :=
  match e with
  | Exec (GhApiRepo _ _) => True
  | _ => False
  end.

(** The repository of the target organisation that a command changes or
    clones, for the commands that name one. *)
Definition mutatedRepo (e : Event) : option string :=
  match e with
  | Exec (GhRepoCreate n) => Some n
  | Exec (GhRepoDelete n) => Some n
  | Exec (GhActionsPermissions n _) => Some n
  | Exec (GhWorkflowPermissions n) => Some n
  | Exec (GhRepoClone n) => Some n
  | Exec (GitRemoteAdd n) => Some n
  | _ => None
  end.

(** What [createIndependentRepository] may do. *)
Definition createEvent (sourceRepoName targetRepoName : string) (e : Event) : Prop :=
  match e with
  | Exec (GhRepoCreate n) => n = targetRepoName
  | Exec (GhRepoDelete n) => n = targetRepoName
  | Exec (GitRemoteAdd n) => n = targetRepoName
  | Exec (GhApiRepo org n) => org = "cdktn-io" /\ n = targetRepoName
  | Exec (GhActionsPermissions n enabled) => n = targetRepoName /\ enabled = false
  | Exec (GitCloneBare n) => n = sourceRepoName
  | Exec Mktemp => True
  | Exec GitPushMirror => True
  | Exec (RmRf _) => True
  | Sleep ms => ms = 2000
  | _ => False
  end.

(** What [fixTeamNames] may do. *)
Definition fixEvent (repoName : string) (e : Event) : Prop :=
  match e with
  | Exec (GhRepoClone n) => n = repoName
  | Exec Mktemp => True
  | Exec (RmRf _) => True
  | Exec FindWorkflows => True
  | Exec GitConfigUserName => True
  | Exec GitConfigUserEmail => True
  | Exec GitAddWorkflows => True
  | Exec GitCommit => True
  | Exec GitPushMain => True
  | WriteFile _ _ => True
  | _ => False
  end.

(** What one iteration of the migration loop may do. *)
Definition migrationEvent (repo : Probed) (e : Event) : Prop :=
  createEvent (sourceName repo) (name repo) e
  \/ fixEvent (name repo) e
  \/ e = Exec (GhActionsPermissions (name repo) true)
  \/ e = Sleep 5000.

(** An event of a run that is the write of the artifact. *)
Definition isImportWrite (e : Event) : Prop :=
  exists dir content, e = WriteFile (pathJoin dir "import.tf") content.

(** Step 1 (create, with its polling) or step 3 (history transfer) of the
    migration of [r] throws [e] when started in state [s], leaving [s']. *)
Definition stepFails (w : World) (r : Probed) (s : St) (e : string) (s' : St) : Prop :=
  createEmptyRepository w (name r) s = (Throw e, s')
  \/ exists b s1,
       createEmptyRepository w (name r) s = (Val b, s1)
       /\ migrateRepositoryHistory w (sourceName r) (name r)
            (log (Exec (GhActionsPermissions (name r) false)) s1)
          = (Throw e, s').

(** The three tokens that [fixTeamNames] replaces. *)
Definition holdsLegacyToken (content : string) : bool :=
  (includes "@cdktf/tf-cdk-team" content
   || includes OLD_TEAM content
   || includes OLD_EMAIL content)%bool.

(** Whether the character [z] occurs in [s]. *)
Fixpoint occurs (z : ascii) (s : string) : bool :=
  match s with
  | EmptyString => false
  | String c s' => (Ascii.eqb c z || occurs z s')%bool
  end.

Fixpoint lastChar (s : string) : option ascii :=
  match s with
  | EmptyString => None
  | String c s' => match lastChar s' with
                   | Some z => Some z
                   | None => Some c
                   end
  end.

(** No proper suffix of [p] starts [rep]. *)
Fixpoint suffixesAvoid (p rep : string) : bool :=
  match p with
  | EmptyString => true
  | String _ p' =>
      match p' with
      | EmptyString => true
      | _ => (negb (String.prefix p' rep) && suffixesAvoid p' rep)%bool
      end
  end.

(** A pair of a pattern and a replacement for which replacing cannot make a
    new occurrence of the pattern: the replacement does not hold the pattern,
    does not start with the end of one, and ends with a character that the
    pattern does not have. *)
Definition cleanReplacement (pat rep : string) : bool :=
  (nonEmpty pat
   && negb (includes pat rep)
   && suffixesAvoid pat rep
   && match lastChar rep with
      | Some z => negb (occurs z pat)
      | None => false
      end)%bool.

(** The new content that [fixTeamNames] computes for a workflow file. *)
Definition workflowContent (content : string) : string :=
  replaceAll OLD_EMAIL NEW_EMAIL (replaceAll OLD_TEAM NEW_TEAM content).

(** The new content that [fixTeamNames] computes for CODEOWNERS. *)
Definition codeOwnersContent (content : string) : string :=
  replaceAll "@cdktf/tf-cdk-team" "@cdktn-io/team-cdk-terrain" content.

(** A write of the workflow loop of [fixTeamNames] over [files]: the new
    content of a listed file that was read with a legacy token in it. *)
Definition workflowWrite (w : World) (files : list string) (e : Event) : Prop :=
  exists path content s0,
    e = WriteFile path (workflowContent content)
    /\ In path files
    /\ read_file w s0 path = Some content
    /\ (includes OLD_TEAM content || includes OLD_EMAIL content)%bool = true.

(** [k] attempts of the polling loop that did not find the repository. *)
Fixpoint failedPolls (targetRepoName : string) (k : nat) : list Event :=
  match k with
  | O => []
  | S k' => Exec (GhApiRepo "cdktn-io" targetRepoName) :: Sleep 2000
            :: failedPolls targetRepoName k'
  end.

(** An event other than the mirror push. *)
Definition notPush (e : Event) : Prop := e <> Exec GitPushMirror.

(** The test of [generateImportBlocks] for the comment list. *)
Definition isCreateFresh (r : Probed) : bool := String.eqb (action r) "create-fresh".

(** The pause between two repositories, and how many a trace holds. *)
Definition isPause (e : Event) : bool :=
  match e with
  | Sleep ms => Nat.eqb ms 5000
  | _ => false
  end.

Definition pauses (t : list Event) : nat := List.length (filter isPause t).

(** The repositories that a trace creates, in order, and the ones it
    deletes. *)
Definition creations (t : list Event) : list string :=
  flat_map (fun e => match e with
                     | Exec (GhRepoCreate n) => [n]
                     | _ => []
                     end) t.

Definition deletions (t : list Event) : list string :=
  flat_map (fun e => match e with
                     | Exec (GhRepoDelete n) => [n]
                     | _ => []
                     end) t.

(** An event that neither creates nor deletes a repository. *)
Definition quiet (e : Event) : Prop := creations [e] = [] /\ deletions [e] = [].

(** The state [s] after the events [t], in the same working directory. *)
Definition after (s : St) (t : list Event) : St :=
  {| trace := (trace s ++ t)%list; cwd := cwd s |}.

(** The records are the answers: the record of the descriptor at index [i]
    holds what the hosting service answered to the query of its source, asked
    after the queries of the [i] descriptors before it, and to the query of
    its target, asked right after that. *)
Definition recordsAnswers (w : World) (filteredRepos : list Repo) (s : St)
    (results : list Probed) : Prop :=
  forall i r,
    nth_error results i = Some r ->
    let asked := after s (flat_map probesOf (firstn i filteredRepos)) in
    sourceExists r = exec_ok w asked (GhApiRepo "cdktf" (sourceName r))
    /\ targetExists r
       = exec_ok w (log (Exec (GhApiRepo "cdktf" (sourceName r))) asked)
           (GhApiRepo "cdktn-io" (name r)).

(** The traces of the repositories of a loop, with one pause between two
    of them. *)
Fixpoint separated (segments : list (list Event)) : list Event :=
  match segments with
  | [] => []
  | segment :: rest =>
      match rest with
      | [] => segment
      | _ => (segment ++ Sleep 5000 :: separated rest)%list
      end
  end.

(** What the loop does for the repository [r], the pause apart: it creates
    [r] and nothing else, does not pause, and ends with the request that
    enables the actions of [r]. *)
Definition migrationOf (r : Probed) (segment : list Event) : Prop :=
  pauses segment = 0
  /\ creations segment = [name r]
  /\ exists body,
       segment = (body ++ [Exec (GhActionsPermissions (name r) true)])%list.

(** The snapshot has no [resource.github_repository]. *)
Definition collectionAbsent (j : CdkTfJson) : Prop :=
  match resource j with
  | None => True
  | Some types => lookup "github_repository" types = None
  end.

(** The descriptors [main] gets to probe: [filteredRepos], when the checks
    at the top of the script pass and the snapshot parses. *)
Definition filteredOf (inp : Input) : option (list Repo) :=
  match stackDir (args inp) with
  | None => None
  | Some _ =>
      if (match onlyRepos (args inp) with Some _ => true | None => false end
          && Nat.ltb 0 (List.length (excludeRepos (args inp))))%bool
      then None
      else if negb (stackDirExists inp) then None
      else
        match cdkTfJsonFile inp with
        | Parsed j =>
            Some (filterRepositories (parseCdkTfJson j)
                    (onlyRepos (args inp)) (excludeRepos (args inp)))
        | _ => None
        end
  end.

(** The array [results] of [main] in the run on [inp], empty when the run
    ends before the probe loop. *)
Definition probed (w : World) (inp : Input) : list Probed :=
  match filteredOf inp with
  | Some filteredRepos =>
      match probeLoop w filteredRepos [] false initial with
      | (Val p, _) => fst p
      | _ => []
      end
  | None => []
  end.

(** ** Concrete runs

    A small hosting service to run the script against, and the inputs used
    below to evaluate it. *)

Module Scenario.

Definition aws : Repo :=
  {| resourceName := "cdktn-provider-aws_repo_45EAAAF4";
     name := "cdktn-provider-aws";
     sourceName := "cdktf-provider-aws" |}.

Definition tls : Repo :=
  {| resourceName := "cdktn-provider-tls_repo_11A4EE37";
     name := "cdktn-provider-tls";
     sourceName := "cdktf-provider-tls" |}.

Definition docker : Repo :=
  {| resourceName := "cdktn-provider-docker_repo_7C3B2A90";
     name := "cdktn-provider-docker";
     sourceName := "cdktf-provider-docker" |}.

(** The record the probe loop builds for [r] when no target exists. *)
Definition record (r : Repo) (sourceExists : bool) : Probed :=
  {| repo := r;
     sourceExists := sourceExists;
     targetExists := false;
     action := if sourceExists then "fork" else "create-fresh" |}.

Definition entry (r : Repo) : string * ResourceConfig :=
  (resourceName r, {| cfg_name := name r |}).

Definition snapshot (repos : list Repo) : CdkTfJson :=
  {| resource := Some [("github_repository", map entry repos)] |}.

(** A snapshot with resources, none of them a repository. *)
Definition snapshotWithoutRepositories : CdkTfJson :=
  {| resource :=
       Some [("github_issue_label",
              [("cdktn-provider-aws_label_automerge", {| cfg_name := "automerge" |})])] |}.

Definition input (yes : bool) (file : SnapshotFile) : Input :=
  {| args := {| dryRun := negb yes;
                stackDir := Some "cdktf.out/stacks/repos";
                onlyRepos := None;
                excludeRepos := [] |};
     stackDirExists := true;
     cdkTfJsonFile := file |}.

Definition stamp : string := "2025-12-10T09:30:00.000Z".

Definition created (n : string) (tr : list Event) : bool :=
  existsb (fun e => match e with
                    | Exec (GhRepoCreate m) => String.eqb n m
                    | _ => false
                    end) tr.

(** The source organisation holds [sources]; the target organisation holds
    [targets] and whatever this run has created; every other command
    succeeds unless [fails] names it.  [files] is the clone that
    [fixTeamNames] works in and [found] what [find] prints there. *)
Definition hosting (sources targets : list string) (fails : Cmd -> bool)
    (files : list (string * string)) (found : string) : World :=
  {| exec_ok := fun s c =>
       match c with
       | GhApiRepo org n =>
           if String.eqb org "cdktf" then arrIncludes sources n
           else (arrIncludes targets n || created n (trace s))%bool
       | _ => negb (fails c)
       end;
     exec_out := fun _ c =>
       match c with
       | Mktemp => "/tmp/tmp.k3Qw9" ++ newline
       | FindWorkflows => found
       | _ => EmptyString
       end;
     read_file := fun _ path => lookup path files;
     write_ok := fun _ _ => true;
     clock := fun _ => stamp |}.

Definition nothingFails (c : Cmd) : bool := false.

Definition disablingFails (c : Cmd) : bool :=
  match c with
  | GhActionsPermissions _ false => true
  | _ => false
  end.

Definition pushFails (c : Cmd) : bool :=
  match c with
  | GitPushMirror => true
  | _ => false
  end.

Definition cloningTlsFails (c : Cmd) : bool :=
  match c with
  | GitCloneBare n => String.eqb n "cdktf-provider-tls"
  | _ => false
  end.

Definition allSources : list string :=
  ["cdktf-provider-aws"; "cdktf-provider-tls"; "cdktf-provider-docker"].

Definition commitFails (c : Cmd) : bool :=
  match c with
  | GitCommit => true
  | _ => false
  end.

(** A clone whose CODEOWNERS already names the new team and whose only
    workflow mentions no legacy team or email; [git commit] finds nothing to
    commit. *)
Definition upToDateFiles : list (string * string) :=
  [ (".github/CODEOWNERS", "* @cdktn-io/team-cdk-terrain" ++ newline);
    (".github/workflows/build.yml", "name: build" ++ newline) ].

Definition upToDate : World :=
  hosting allSources [] commitFails upToDateFiles
    (".github/workflows/build.yml" ++ newline).

(** A clone whose CODEOWNERS names the legacy team and that has no
    workflows. *)
Definition legacyOwnersFiles : list (string * string) :=
  [ (".github/CODEOWNERS", "* @cdktf/tf-cdk-team" ++ newline) ].

Definition legacyOwners : World :=
  hosting allSources [] nothingFails legacyOwnersFiles EmptyString.

(** A clone without CODEOWNERS and without workflows. *)
Definition bare : World :=
  hosting allSources [] nothingFails [] EmptyString.

End Scenario.

Import Scenario.

(** ** Properties of the pure functions *)

Section StringFacts.

Lemma append_assoc (a b c : string) : (a ++ b) ++ c = a ++ b ++ c.
Proof. induction a as [|x a IH]; simpl; [reflexivity | now rewrite IH]. Qed.

Lemma stripPrefix_app (p r : string) : stripPrefix p (p ++ r) = Some r.
Proof.
  induction p as [|a p IH]; simpl; [reflexivity|].
  now rewrite Ascii.eqb_refl.
Qed.

Lemma stripPrefix_Some (p s r : string) :
  stripPrefix p s = Some r -> s = p ++ r.
Proof.
  revert s; induction p as [|a p IH]; intros s H; simpl in *.
  - now injection H.
  - destruct s as [|b s]; [discriminate|].
    destruct (Ascii.eqb a b) eqn:E; [|discriminate].
    apply Ascii.eqb_eq in E; subst b.
    now rewrite (IH s H).
Qed.

Lemma prefix_stripPrefix (p s : string) :
  String.prefix p s = true <-> exists r, stripPrefix p s = Some r.
Proof.
  revert s; induction p as [|a p IH]; intros s.
  - destruct s; simpl; split; eauto.
  - destruct s as [|b s]; simpl.
    + split; [discriminate | intros [r H]; discriminate].
    + destruct (ascii_dec a b) as [->|N].
      * rewrite Ascii.eqb_refl. apply IH.
      * apply Ascii.eqb_neq in N. rewrite N.
        split; [discriminate | intros [r H]; discriminate].
Qed.

Lemma prefix_false_stripPrefix (p s : string) :
  String.prefix p s = false -> stripPrefix p s = None.
Proof.
  intros H. destruct (stripPrefix p s) as [r|] eqn:E; [|reflexivity].
  assert (String.prefix p s = true) by (apply prefix_stripPrefix; eauto).
  congruence.
Qed.

Lemma replacePrefix_app (old new r : string) :
  replacePrefix old new (old ++ r) = new ++ r.
Proof. unfold replacePrefix. now rewrite stripPrefix_app. Qed.

End StringFacts.

(** C6. [getSourceRepoName] is a function of its argument alone.  On a name
    that starts with [cdktn-] it puts [cdktf-] in the place of that prefix,
    and putting [cdktn-] back in the place of [cdktf-] gives the name again;
    a name that does not start with [cdktn-] is returned unchanged. *)
Theorem getSourceRepoName_prefix_substitution (targetRepoName : string) :
  (startsWith "cdktn-" targetRepoName = true ->
   exists rest,
     targetRepoName = "cdktn-" ++ rest
     /\ getSourceRepoName targetRepoName = "cdktf-" ++ rest
     /\ replacePrefix "cdktf-" "cdktn-" (getSourceRepoName targetRepoName)
        = targetRepoName)
  /\ (startsWith "cdktn-" targetRepoName = false ->
      getSourceRepoName targetRepoName = targetRepoName).
Proof.
  unfold startsWith, getSourceRepoName. split; intros H.
  - apply prefix_stripPrefix in H. destruct H as [rest H].
    apply stripPrefix_Some in H. subst targetRepoName.
    exists rest. rewrite !replacePrefix_app. auto.
  - unfold replacePrefix. now rewrite (prefix_false_stripPrefix _ _ H).
Qed.

Lemma getSourceRepoName_prefix_substitution_witness :
  getSourceRepoName "cdktn-provider-aws" = "cdktf-provider-aws"
  /\ replacePrefix "cdktf-" "cdktn-" (getSourceRepoName "cdktn-provider-aws")
     = "cdktn-provider-aws"
  /\ getSourceRepoName "terraform-cdktn-x" = "terraform-cdktn-x".
Proof.
  destruct (getSourceRepoName_prefix_substitution "cdktn-provider-aws") as [H _].
  destruct (H eq_refl) as [rest [E [H1 H2]]].
  destruct (getSourceRepoName_prefix_substitution "terraform-cdktn-x") as [_ H3].
  injection E as E. subst rest.
  split; [exact H1 | split; [exact H2 | exact (H3 eq_refl)]].
Defined.

(** ** Filtering *)

Lemma filter_split_In {A : Type} (f : A -> bool) (l : list A) (x : A) :
  In x l <-> In x (filter f l) \/ In x (filter (fun y => negb (f y)) l).
Proof.
  rewrite !filter_In. split.
  - intros H. destruct (f x) eqn:E; [left | right]; auto.
  - intros [[H _] | [H _]]; exact H.
Qed.

Lemma filter_split_disjoint {A : Type} (f : A -> bool) (l : list A) (x : A) :
  ~ (In x (filter f l) /\ In x (filter (fun y => negb (f y)) l)).
Proof.
  rewrite !filter_In. intros [[_ H1] [_ H2]]. rewrite H1 in H2. discriminate.
Qed.

Lemma filter_split_Permutation {A : Type} (f : A -> bool) (l : list A) :
  Permutation (filter f l ++ filter (fun y => negb (f y)) l) l.
Proof.
  induction l as [|a l IH]; simpl; [constructor|].
  destruct (f a); simpl.
  - now constructor.
  - symmetry. apply Permutation_cons_app. now symmetry.
Qed.

Lemma filterRepositories_only (repos : list Repo) (X : list string) :
  X <> [] ->
  filterRepositories repos (Some X) []
  = filter (fun repo => arrIncludes X (name repo)) repos.
Proof. destruct X; [congruence | reflexivity]. Qed.

Lemma filterRepositories_exclude (repos : list Repo) (X : list string) :
  X <> [] ->
  filterRepositories repos None X
  = filter (fun repo => negb (arrIncludes X (name repo))) repos.
Proof. destruct X; [congruence | reflexivity]. Qed.

(** C7, as the code has it.  For a selection [X] that is not empty, the
    descriptors kept with [only = X] and the ones kept with [exclude = X]
    split [S]: every descriptor of [S] is in one of the two results, none is
    in both, and together they are [S] up to order.  For the empty selection
    the guards [length > 0] make both calls return [S] itself. *)
Theorem filterRepositories_partition (S : list Repo) (X : list string) :
  (X <> [] ->
   (forall r, In r S <->
      In r (filterRepositories S (Some X) [])
      \/ In r (filterRepositories S None X))
   /\ (forall r, ~ (In r (filterRepositories S (Some X) [])
                   /\ In r (filterRepositories S None X)))
   /\ Permutation
        (filterRepositories S (Some X) [] ++ filterRepositories S None X) S)
  /\ (X = [] ->
      filterRepositories S (Some X) [] = S /\ filterRepositories S None X = S).
Proof.
  split.
  - intros HX.
    rewrite (filterRepositories_only S X HX), (filterRepositories_exclude S X HX).
    split; [|split].
    + intros r. apply filter_split_In.
    + intros r. apply filter_split_disjoint.
    + apply filter_split_Permutation.
  - intros ->. split; reflexivity.
Qed.

(** ** Reasoning about the effects *)

Section Combinators.

Variable P : Event -> Prop.

Lemma emits_same {A : Type} (m : M A) :
  (forall s, trace (snd (m s)) = trace s) -> emits P m.
Proof.
  intros H s. exists []. rewrite H, app_nil_r. auto.
Qed.

Lemma emits_ret {A : Type} (a : A) : emits P (ret a).
Proof. now apply emits_same. Qed.

Lemma emits_throw {A : Type} (e : string) : emits P (@throw A e).
Proof. now apply emits_same. Qed.

Lemma emits_exit {A : Type} (c : nat) : emits P (@exit A c).
Proof. now apply emits_same. Qed.

Lemma emits_getCwd : emits P getCwd.
Proof. now apply emits_same. Qed.

Lemma emits_chdir (dir : string) : emits P (chdir dir).
Proof. now apply emits_same. Qed.

Lemma emits_now (w : World) : emits P (now w).
Proof. now apply emits_same. Qed.

Lemma emits_readFileSync (w : World) (path : string) :
  emits P (readFileSync w path).
Proof.
  apply emits_same. intros s. unfold readFileSync.
  now destruct (read_file w s path).
Qed.

Lemma emits_sleep (ms : nat) : P (Sleep ms) -> emits P (sleep ms).
Proof. intros H s. exists [Sleep ms]. simpl. auto. Qed.

Lemma emits_execSync (w : World) (c : Cmd) :
  P (Exec c) -> emits P (execSync w c).
Proof.
  intros H s. exists [Exec c]. unfold execSync.
  destruct (exec_ok w s c); simpl; auto.
Qed.

Lemma emits_writeFileSync (w : World) (path content : string) :
  P (WriteFile path content) -> emits P (writeFileSync w path content).
Proof.
  intros H s. unfold writeFileSync.
  destruct (write_ok w s path); simpl.
  - exists [WriteFile path content]. auto.
  - exists []. rewrite app_nil_r. auto.
Qed.

Lemma emits_bind {A B : Type} (m : M A) (k : A -> M B) :
  emits P m -> (forall a, emits P (k a)) -> emits P (bind m k).
Proof.
  intros Hm Hk s. unfold bind.
  destruct (Hm s) as [t1 [E1 F1]].
  destruct (m s) as [[a|e|c] s1]; simpl in E1.
  - destruct (Hk a s1) as [t2 [E2 F2]].
    exists (t1 ++ t2)%list. rewrite E2, E1, app_assoc.
    split; [reflexivity | now apply Forall_app].
  - exists t1. auto.
  - exists t1. auto.
Qed.

Lemma emits_tryCatch {A : Type} (m : M A) (h : string -> M A) :
  emits P m -> (forall e, emits P (h e)) -> emits P (tryCatch m h).
Proof.
  intros Hm Hh s. unfold tryCatch.
  destruct (Hm s) as [t1 [E1 F1]].
  destruct (m s) as [[a|e|c] s1]; simpl in E1.
  - exists t1. auto.
  - destruct (Hh e s1) as [t2 [E2 F2]].
    exists (t1 ++ t2)%list. rewrite E2, E1, app_assoc.
    split; [reflexivity | now apply Forall_app].
  - exists t1. auto.
Qed.

Lemma emits_tryFinally {A : Type} (m : M A) (f : M unit) :
  emits P m -> emits P f -> emits P (tryFinally m f).
Proof.
  intros Hm Hf s. unfold tryFinally.
  destruct (Hm s) as [t1 [E1 F1]].
  destruct (m s) as [[a|e|c] s1]; simpl in E1;
    try (exists t1; auto; fail);
    destruct (Hf s1) as [t2 [E2 F2]];
    exists (t1 ++ t2)%list;
    (split; [|now apply Forall_app]);
    destruct (f s1) as [[u|e'|c'] s2]; simpl in *;
    now rewrite E2, E1, app_assoc.
Qed.

End Combinators.

Lemma emits_impl {A : Type} (P Q : Event -> Prop) (m : M A) :
  (forall e, P e -> Q e) -> emits P m -> emits Q m.
Proof.
  intros H Hm s. destruct (Hm s) as [t [E F]].
  exists t. split; [exact E | now apply (Forall_impl Q H)].
Qed.

Lemma noExit_ret {A : Type} (a : A) : noExit (ret a).
Proof. intros s c. discriminate. Qed.

Lemma noExit_throw {A : Type} (e : string) : noExit (@throw A e).
Proof. intros s c. discriminate. Qed.

Lemma noExit_getCwd : noExit getCwd.
Proof. intros s c. discriminate. Qed.

Lemma noExit_chdir (dir : string) : noExit (chdir dir).
Proof. intros s c. discriminate. Qed.

Lemma noExit_sleep (ms : nat) : noExit (sleep ms).
Proof. intros s c. discriminate. Qed.

Lemma noExit_execSync (w : World) (c : Cmd) : noExit (execSync w c).
Proof.
  intros s k. unfold execSync. destruct (exec_ok w s c); discriminate.
Qed.

Lemma noExit_readFileSync (w : World) (path : string) :
  noExit (readFileSync w path).
Proof.
  intros s k. unfold readFileSync. destruct (read_file w s path); discriminate.
Qed.

Lemma noExit_writeFileSync (w : World) (path content : string) :
  noExit (writeFileSync w path content).
Proof.
  intros s k. unfold writeFileSync. destruct (write_ok w s path); discriminate.
Qed.

Lemma noExit_bind {A B : Type} (m : M A) (k : A -> M B) :
  noExit m -> (forall a, noExit (k a)) -> noExit (bind m k).
Proof.
  intros Hm Hk s c. unfold bind.
  specialize (Hm s). destruct (m s) as [[a|e|c'] s1]; simpl in *.
  - apply Hk.
  - discriminate.
  - exfalso. now apply (Hm c').
Qed.

Lemma noExit_tryCatch {A : Type} (m : M A) (h : string -> M A) :
  noExit m -> (forall e, noExit (h e)) -> noExit (tryCatch m h).
Proof.
  intros Hm Hh s c. unfold tryCatch.
  specialize (Hm s). destruct (m s) as [[a|e|c'] s1]; simpl in *.
  - discriminate.
  - apply Hh.
  - exfalso. now apply (Hm c').
Qed.

Lemma noExit_tryFinally {A : Type} (m : M A) (f : M unit) :
  noExit m -> noExit f -> noExit (tryFinally m f).
Proof.
  intros Hm Hf s c. unfold tryFinally.
  specialize (Hm s). destruct (m s) as [[a|e|c'] s1]; simpl in *;
    try (exfalso; now apply (Hm c'));
    specialize (Hf s1); destruct (f s1) as [[u|e'|c''] s2]; simpl in *;
    try discriminate; exfalso; now apply (Hf c'').
Qed.

(** Splits a goal [emits P m] or [noExit m] along the structure of [m]. *)
Ltac effects :=
  repeat first
    [ apply emits_bind; [|intros ?]
    | apply emits_tryCatch; [|intros ?]
    | apply emits_tryFinally
    | apply emits_ret | apply emits_throw | apply emits_exit
    | apply emits_getCwd | apply emits_chdir | apply emits_now
    | apply emits_readFileSync
    | apply emits_sleep | apply emits_execSync | apply emits_writeFileSync
    | apply noExit_bind; [|intros ?]
    | apply noExit_tryCatch; [|intros ?]
    | apply noExit_tryFinally
    | apply noExit_ret | apply noExit_throw
    | apply noExit_getCwd | apply noExit_chdir | apply noExit_sleep
    | apply noExit_execSync | apply noExit_readFileSync
    | apply noExit_writeFileSync
    | match goal with
      | |- emits _ (if ?b then _ else _) => destruct b
      | |- noExit (if ?b then _ else _) => destruct b
      | |- emits _ (match ?o with Some _ => _ | None => _ end) => destruct o
      | |- noExit (match ?o with Some _ => _ | None => _ end) => destruct o
      end ].

(** ** The probes *)

Lemma checkSourceRepo_eq (w : World) (sourceRepoName : string) (s : St) :
  checkSourceRepo w sourceRepoName s
  = (Val (exec_ok w s (GhApiRepo "cdktf" sourceRepoName)),
     log (Exec (GhApiRepo "cdktf" sourceRepoName)) s).
Proof.
  unfold checkSourceRepo, tryCatch, bind, execSync, ret.
  now destruct (exec_ok w s _).
Qed.

Lemma checkTargetRepo_eq (w : World) (repoName : string) (s : St) :
  checkTargetRepo w repoName s
  = (Val (exec_ok w s (GhApiRepo "cdktn-io" repoName)),
     log (Exec (GhApiRepo "cdktn-io" repoName)) s).
Proof.
  unfold checkTargetRepo, tryCatch, bind, execSync, ret.
  now destruct (exec_ok w s _).
Qed.

Lemma probeLoop_spec (w : World) (filteredRepos : list Repo) :
  forall (results : list Probed) (hasConflicts : bool) (s : St),
  exists (rs : list Probed) (s' : St),
    probeLoop w filteredRepos results hasConflicts s
    = (Val ((results ++ rs)%list, (hasConflicts || existsb targetExists rs)%bool), s')
    /\ map repo rs = filteredRepos
    /\ trace s' = (trace s ++ flat_map probesOf filteredRepos)%list
    /\ Forall wellClassified rs.
Proof.
  induction filteredRepos as [|r rest IH]; intros results hc s.
  - exists [], s. simpl. unfold ret.
    rewrite !app_nil_r, orb_false_r. auto.
  - simpl. unfold bind at 1. rewrite checkSourceRepo_eq.
    unfold bind at 1. rewrite checkTargetRepo_eq.
    set (src := exec_ok w s _).
    set (s1 := log _ s).
    set (tgt := exec_ok w s1 _).
    set (s2 := log _ s1).
    set (rec := {| repo := r; sourceExists := src; targetExists := tgt;
                   action := if src then "fork" else "create-fresh" |}).
    destruct (IH (results ++ [rec])%list (if tgt then true else hc) s2)
      as [rs [s' [E [Hm [Ht Hw]]]]].
    exists (rec :: rs), s'. rewrite E. split; [|split; [|split]].
    + rewrite <- app_assoc. simpl.
      replace ((if tgt then true else hc) || existsb targetExists rs)%bool
        with (hc || (tgt || existsb targetExists rs))%bool; [reflexivity|].
      generalize (existsb targetExists rs). generalize tgt.
      intros [] []; destruct hc; reflexivity.
    + simpl. now rewrite Hm.
    + rewrite Ht. unfold s2, s1. simpl. now rewrite <- !app_assoc.
    + constructor; [reflexivity | exact Hw].
Qed.

Lemma after_nil (s : St) : after s [] = s.
Proof. destruct s. unfold after. cbn. now rewrite app_nil_r. Qed.

Lemma after_log (s : St) (t : list Event) (e : Event) :
  log e (after s t) = after s (t ++ [e]).
Proof. unfold after, log. cbn. now rewrite app_assoc. Qed.

Lemma after_after (s : St) (a b : list Event) :
  after (after s a) b = after s (a ++ b).
Proof. unfold after. cbn. now rewrite app_assoc. Qed.

Lemma probeLoop_answers (w : World) (filteredRepos : list Repo) :
  forall (results : list Probed) (hasConflicts : bool) (s : St),
  exists (rs : list Probed),
    probeLoop w filteredRepos results hasConflicts s
    = (Val ((results ++ rs)%list, (hasConflicts || existsb targetExists rs)%bool),
       after s (flat_map probesOf filteredRepos))
    /\ map repo rs = filteredRepos
    /\ Forall wellClassified rs
    /\ recordsAnswers w filteredRepos s rs.
Proof.
  induction filteredRepos as [|r rest IH]; intros results hc s.
  - exists []. cbn. unfold ret.
    rewrite !app_nil_r, orb_false_r, after_nil.
    split; [reflexivity | split; [reflexivity | split; [constructor|]]].
    intros [|i] r0 Hn; discriminate.
  - cbn [probeLoop]. unfold bind at 1. rewrite checkSourceRepo_eq.
    unfold bind at 1. rewrite checkTargetRepo_eq.
    set (src := exec_ok w s _).
    set (s1 := log _ s).
    set (tgt := exec_ok w s1 _).
    set (s2 := log _ s1).
    set (rec := {| repo := r; sourceExists := src; targetExists := tgt;
                   action := if src then "fork" else "create-fresh" |}).
    destruct (IH (results ++ [rec])%list (if tgt then true else hc) s2)
      as [rs [E [Hm [Hw Ha]]]].
    assert (Hs2 : s2 = after s (probesOf r)).
    { unfold s2, s1. rewrite <- (after_nil s) at 1.
      now rewrite !after_log. }
    exists (rec :: rs). rewrite E. split; [|split; [|split]].
    + rewrite <- app_assoc. cbn [app existsb targetExists].
      replace ((if tgt then true else hc) || existsb targetExists rs)%bool
        with (hc || (tgt || existsb targetExists rs))%bool.
      * cbn [flat_map]. now rewrite Hs2, after_after.
      * generalize (existsb targetExists rs). generalize tgt.
        intros [] []; destruct hc; reflexivity.
    + cbn. now rewrite Hm.
    + constructor; [reflexivity | exact Hw].
    + intros [|i] r0 H.
      * cbn in H. injection H as <-. cbn [firstn flat_map].
        cbv zeta. rewrite after_nil. split; reflexivity.
      * cbn [nth_error] in H. specialize (Ha i r0 H). cbv zeta in Ha |- *.
        cbn [firstn flat_map]. rewrite Hs2, after_after in Ha. exact Ha.
Qed.

(** C10. The probe loop does not stop at a conflict.  From any state and
    whatever the answers are, it queries the source and the target of every
    filtered descriptor, in order, and appends one record per descriptor; the
    record holds the two answers, and the action that follows from the first.
    Only then does it report a conflict, which it does exactly when some
    query of a target was answered. *)
Theorem probeLoop_visits_every_descriptor
    (w : World) (filteredRepos : list Repo) (s : St) :
  exists (results : list Probed) (s' : St),
    probeLoop w filteredRepos [] false s
    = (Val (results, existsb targetExists results), s')
    /\ map repo results = filteredRepos
    /\ trace s' = (trace s ++ flat_map probesOf filteredRepos)%list
    /\ Forall wellClassified results
    /\ recordsAnswers w filteredRepos s results.
Proof.
  destruct (probeLoop_answers w filteredRepos [] false s)
    as [rs [E [Hm [Hw Ha]]]].
  exists rs, (after s (flat_map probesOf filteredRepos)).
  split; [exact E | split; [exact Hm | split; [reflexivity | split; [exact Hw | exact Ha]]]].
Qed.

Lemma probesOf_isProbe (l : list Repo) : Forall isProbe (flat_map probesOf l).
Proof.
  induction l as [|r l IH]; simpl; [constructor|].
  repeat constructor. exact IH.
Qed.

(** What the script does once it gets to the descriptors. *)
Lemma script_eq (w : World) (inp : Input) (f : list Repo) :
  filteredOf inp = Some f ->
  exists dir,
    stackDir (args inp) = Some dir
    /\ forall s,
        script w inp s
        = tryCatch
            (if Nat.eqb (List.length f) 0 then exit 0
             else
               p <- probeLoop w f [] false ;;
               if snd p then exit 1
               else migrateAll w inp (fst p) ;; writeImport w dir (fst p))
            (fun _ => exit 1) s.
Proof.
  unfold filteredOf, script. intros H.
  destruct (stackDir (args inp)) as [dir|]; [|discriminate].
  exists dir. split; [reflexivity|]. intros s.
  destruct (_ && _)%bool; [discriminate|].
  destruct (negb (stackDirExists inp)); [discriminate|].
  unfold main.
  destruct (cdkTfJsonFile inp) as [| |j]; try discriminate.
  injection H as <-. reflexivity.
Qed.

(** C1. When the probe loop records an existing target for any filtered
    descriptor, the run ends with exit status 1 and everything it has done is
    existence queries: no creation, deletion, actions toggling, clone, push
    or file write, whether [--yes] was given or not. *)
Theorem conflict_aborts_before_any_mutation (w : World) (inp : Input) :
  (exists r, In r (probed w inp) /\ targetExists r = true) ->
  fst (run w inp) = 1 /\ Forall isProbe (snd (run w inp)).
Proof.
  intros [r [Hin Ht]]. unfold probed in Hin.
  destruct (filteredOf inp) as [f|] eqn:Ef; [|contradiction].
  destruct (script_eq w inp f Ef) as [dir [_ Es]].
  destruct (probeLoop_spec w f [] false initial) as [rs [s' [E [Hm [Htr _]]]]].
  rewrite E in Hin. simpl in Hin.
  assert (Hc : existsb targetExists rs = true)
    by (apply existsb_exists; eauto).
  assert (Hl : Nat.eqb (List.length f) 0 = false).
  { rewrite <- Hm. destruct rs; [contradiction | reflexivity]. }
  unfold run. rewrite Es. unfold tryCatch, bind.
  rewrite Hl, E. simpl. rewrite Hc. simpl.
  split; [reflexivity|]. rewrite Htr. simpl. apply probesOf_isProbe.
Qed.

(** ** The steps of one migration *)

Lemma disableGitHubActions_eq (w : World) (targetRepoName : string) (s : St) :
  disableGitHubActions w targetRepoName s
  = (Val tt, log (Exec (GhActionsPermissions targetRepoName false)) s).
Proof.
  unfold disableGitHubActions, tryCatch, bind, execSync, ret.
  now destruct (exec_ok w s _).
Qed.

Lemma enableGitHubActions_eq (w : World) (targetRepoName : string) (s : St) :
  enableGitHubActions w targetRepoName s
  = (Val tt, log (Exec (GhActionsPermissions targetRepoName true)) s).
Proof.
  unfold enableGitHubActions, tryCatch, bind, execSync, ret.
  now destruct (exec_ok w s _).
Qed.

(** The handler of [createIndependentRepository]: the deletion is attempted,
    its own failure is swallowed, and the error is thrown again. *)
Lemma createIndependentRepository_eq
    (w : World) (sourceRepoName targetRepoName : string) (s : St) :
  createIndependentRepository w sourceRepoName targetRepoName s
  = match (createEmptyRepository w targetRepoName ;;
           disableGitHubActions w targetRepoName ;;
           migrateRepositoryHistory w sourceRepoName targetRepoName ;;
           ret true) s with
    | (Throw e, s1) => (Throw e, log (Exec (GhRepoDelete targetRepoName)) s1)
    | r => r
    end.
Proof.
  unfold createIndependentRepository.
  unfold tryCatch at 1.
  destruct ((createEmptyRepository w targetRepoName ;; _) s) as [[b|e|c] s1];
    try reflexivity.
  unfold bind, tryCatch, execSync, ret, throw.
  now destruct (exec_ok w s1 _).
Qed.

Lemma createIndependentRepository_step1
    (w : World) (sourceRepoName targetRepoName : string) (s s1 : St) (e : string) :
  createEmptyRepository w targetRepoName s = (Throw e, s1) ->
  createIndependentRepository w sourceRepoName targetRepoName s
  = (Throw e, log (Exec (GhRepoDelete targetRepoName)) s1).
Proof.
  intros H. rewrite createIndependentRepository_eq.
  unfold bind at 1. now rewrite H.
Qed.

Lemma createIndependentRepository_step3
    (w : World) (sourceRepoName targetRepoName : string)
    (s s1 s2 : St) (b : bool) (e : string) :
  createEmptyRepository w targetRepoName s = (Val b, s1) ->
  migrateRepositoryHistory w sourceRepoName targetRepoName
    (log (Exec (GhActionsPermissions targetRepoName false)) s1) = (Throw e, s2) ->
  createIndependentRepository w sourceRepoName targetRepoName s
  = (Throw e, log (Exec (GhRepoDelete targetRepoName)) s2).
Proof.
  intros H1 H3. rewrite createIndependentRepository_eq.
  unfold bind at 1. rewrite H1.
  unfold bind at 1. rewrite disableGitHubActions_eq.
  unfold bind at 1. now rewrite H3.
Qed.

Lemma createIndependentRepository_emits
    (w : World) (sourceRepoName targetRepoName : string) :
  emits (createEvent sourceRepoName targetRepoName)
    (createIndependentRepository w sourceRepoName targetRepoName).
Proof.
  unfold createIndependentRepository, createEmptyRepository,
    disableGitHubActions, migrateRepositoryHistory.
  effects; simpl; auto.
Qed.

Lemma fixWorkflowFiles_emits (w : World) (repoName : string) (files : list string) :
  forall n,
    emits (fixEvent repoName) (fixWorkflowFiles w files n)
    /\ noExit (fixWorkflowFiles w files n).
Proof.
  induction files as [|f files IH]; intros n; simpl; split;
    effects; simpl; auto; apply IH.
Qed.

Lemma fixTeamNames_emits (w : World) (repoName : string) :
  emits (fixEvent repoName) (fixTeamNames w repoName).
Proof.
  unfold fixTeamNames.
  effects; simpl; auto; apply fixWorkflowFiles_emits.
Qed.

Lemma fixTeamNames_noExit (w : World) (repoName : string) :
  noExit (fixTeamNames w repoName).
Proof.
  unfold fixTeamNames.
  effects; apply (fixWorkflowFiles_emits w repoName).
Qed.

(** [fixTeamNames] swallows every failure of its own steps. *)
Lemma fixTeamNames_total (w : World) (repoName : string) (s : St) :
  exists s' t,
    fixTeamNames w repoName s = (Val tt, s')
    /\ trace s' = (trace s ++ t)%list
    /\ Forall (fixEvent repoName) t.
Proof.
  destruct (fixTeamNames_emits w repoName s) as [t [E F]].
  pose proof (fixTeamNames_noExit w repoName s) as NE.
  assert (NT : forall e, fst (fixTeamNames w repoName s) <> Throw e).
  { intros e. unfold fixTeamNames, tryCatch at 1.
    destruct (bind _ _ s) as [[u|e'|c] s1]; simpl; discriminate. }
  destruct (fixTeamNames w repoName s) as [[[]|e|c] s'] eqn:R; simpl in *.
  - exists s', t. auto.
  - now elim (NT e).
  - now elim (NE c).
Qed.

(** ** The migration loop *)

Lemma forkLoop_app (w : World) (total : nat) (pre rest : list Probed) :
  forall (i : nat) (s : St),
    forkLoop w i total (pre ++ rest) s
    = match forkLoop w i total pre s with
      | (Val _, s') => forkLoop w (i + List.length pre) total rest s'
      | (Throw e, s') => (Throw e, s')
      | (Exit c, s') => (Exit c, s')
      end.
Proof.
  induction pre as [|r pre IH]; intros i s.
  - simpl. unfold ret. now rewrite Nat.add_0_r.
  - cbn [forkLoop app List.length]. unfold bind at 1 5.
    destruct (tryCatch _ _ s) as [[u|e|c] s1]; try reflexivity.
    rewrite IH. now rewrite Nat.add_succ_r.
Qed.

(** A repository whose creation throws ends the loop, and the process. *)
Lemma forkLoop_cons_throw (w : World) (i total : nat) (r : Probed)
    (rest : list Probed) (s s' : St) (e : string) :
  createIndependentRepository w (sourceName r) (name r) s = (Throw e, s') ->
  forkLoop w i total (r :: rest) s = (Exit 1, s').
Proof.
  intros H. cbn [forkLoop]. unfold bind at 1. unfold tryCatch at 1.
  unfold bind at 1. now rewrite H.
Qed.

(** A repository that was created goes through the rest of the iteration:
    the references are fixed, the actions are enabled again, and the loop
    goes on after the delay. *)
Lemma forkLoop_cons_created (w : World) (i total : nat) (r : Probed)
    (rest : list Probed) (s s1 s2 : St) (b : bool) :
  createIndependentRepository w (sourceName r) (name r) s = (Val b, s1) ->
  fixTeamNames w (name r) s1 = (Val tt, s2) ->
  forkLoop w i total (r :: rest) s
  = forkLoop w (S i) total rest
      (let s3 := log (Exec (GhActionsPermissions (name r) true)) s2 in
       if Nat.ltb i (total - 1) then log (Sleep 5000) s3 else s3).
Proof.
  intros H1 H2. cbn [forkLoop]. unfold bind at 1. unfold tryCatch at 1.
  unfold bind at 1. rewrite H1.
  unfold bind at 1. rewrite H2.
  unfold bind at 1. rewrite enableGitHubActions_eq.
  cbv zeta. destruct (Nat.ltb i (total - 1)); reflexivity.
Qed.

Lemma forkLoop_emits (w : World) (total : nat) (Q : Event -> Prop) :
  forall (toFork : list Probed) (i : nat),
    (forall r e, In r toFork -> migrationEvent r e -> Q e) ->
    emits Q (forkLoop w i total toFork).
Proof.
  induction toFork as [|r rest IH]; intros i H; cbn [forkLoop].
  - apply emits_ret.
  - apply emits_bind.
    + apply emits_tryCatch; [|intros; apply emits_exit].
      apply emits_bind.
      { apply emits_impl with (P := createEvent (sourceName r) (name r)).
        - intros e He. apply (H r); [now left | now left].
        - apply createIndependentRepository_emits. }
      intros _. apply emits_bind.
      { apply emits_impl with (P := fixEvent (name r)).
        - intros e He. apply (H r); [now left | right; now left].
        - apply fixTeamNames_emits. }
      intros _. apply emits_bind.
      { intros s. rewrite enableGitHubActions_eq.
        exists [Exec (GhActionsPermissions (name r) true)].
        split; [reflexivity|]. constructor; [|constructor].
        apply (H r); [now left | right; right; now left]. }
      intros _. destruct (Nat.ltb i (total - 1)).
      * apply emits_sleep. apply (H r); [now left | right; right; now right].
      * apply emits_ret.
    + intros _. apply IH. intros r' e Hin. apply H. now right.
Qed.

Lemma migrateAll_emits (w : World) (inp : Input) (results : list Probed)
    (Q : Event -> Prop) :
  (forall r e, dryRun (args inp) = false -> In r (filter isFork results) ->
               migrationEvent r e -> Q e) ->
  emits Q (migrateAll w inp results).
Proof.
  intros H. unfold migrateAll.
  destruct (dryRun (args inp)); simpl; [apply emits_ret|].
  destruct (Nat.eqb _ 0); [apply emits_ret|].
  apply forkLoop_emits. intros r e. now apply H.
Qed.

Lemma script_early (w : World) (inp : Input) :
  filteredOf inp = None -> snd (run w inp) = [].
Proof.
  unfold filteredOf, run, script.
  destruct (stackDir (args inp)) as [dir|]; [|reflexivity].
  destruct (_ && _)%bool; [reflexivity|].
  destruct (negb (stackDirExists inp)); [reflexivity|].
  unfold main.
  destruct (cdkTfJsonFile inp); [reflexivity | reflexivity | discriminate].
Qed.

Lemma probed_eq (w : World) (inp : Input) (f : list Repo)
    (results : list Probed) (hc : bool) (s1 : St) :
  filteredOf inp = Some f ->
  probeLoop w f [] false initial = (Val (results, hc), s1) ->
  probed w inp = results.
Proof. intros Ef E. unfold probed. now rewrite Ef, E. Qed.

(** The run, once the descriptors are known and probed. *)
Lemma script_probed (w : World) (inp : Input) (f : list Repo)
    (results : list Probed) (hc : bool) (s1 : St) :
  filteredOf inp = Some f ->
  f <> [] ->
  probeLoop w f [] false initial = (Val (results, hc), s1) ->
  exists dir,
    stackDir (args inp) = Some dir
    /\ script w inp initial
       = if hc then (Exit 1, s1)
         else match (migrateAll w inp results ;; writeImport w dir results) s1 with
              | (Throw _, s') => (Exit 1, s')
              | r => r
              end.
Proof.
  intros Ef Hf E.
  destruct (script_eq w inp f Ef) as [dir [Hd Es]].
  exists dir. split; [exact Hd|].
  rewrite Es. unfold tryCatch at 1.
  destruct f as [|r0 f0]; [congruence|].
  cbn [List.length Nat.eqb].
  unfold bind at 1. rewrite E. cbn [fst snd].
  destruct hc; reflexivity.
Qed.

Lemma script_empty (w : World) (inp : Input) :
  filteredOf inp = Some [] -> script w inp initial = (Exit 0, initial).
Proof.
  intros Ef. destruct (script_eq w inp [] Ef) as [dir [_ Es]].
  now rewrite Es.
Qed.

(** Every event of a run is a probe, a step of the migration of a descriptor
    classified [fork] (only with [--yes]), or the write of the artifact. *)
Lemma run_events (w : World) (inp : Input) (e : Event) :
  In e (snd (run w inp)) ->
  isProbe e
  \/ (dryRun (args inp) = false
      /\ exists r, In r (filter isFork (probed w inp)) /\ migrationEvent r e)
  \/ isImportWrite e.
Proof.
  destruct (filteredOf inp) as [f|] eqn:Ef.
  2:{ rewrite (script_early w inp Ef). contradiction. }
  destruct f as [|r0 f0].
  { unfold run. rewrite (script_empty w inp Ef). contradiction. }
  remember (r0 :: f0) as f eqn:Hf.
  assert (Hne : f <> []) by (subst f; discriminate).
  destruct (probeLoop_spec w f [] false initial) as [rs [s1 [E [_ [Htr _]]]]].
  simpl in E, Htr.
  pose proof (probed_eq w inp f _ _ _ Ef E) as Hp.
  destruct (script_probed w inp f _ _ _ Ef Hne E) as [dir [_ Es]].
  pose proof (probesOf_isProbe f) as F. rewrite Forall_forall in F.
  unfold run. rewrite Es. clear Es.
  destruct (existsb targetExists rs).
  - cbn [snd]. rewrite Htr. intros Hin. left. auto.
  - set (Q := fun e => (dryRun (args inp) = false
      /\ exists r, In r (filter isFork rs) /\ migrationEvent r e)
      \/ isImportWrite e).
    assert (HQ : emits Q (migrateAll w inp rs ;; writeImport w dir rs)).
    { apply emits_bind.
      - apply migrateAll_emits. intros r e' Hd Hin Hm. left. eauto.
      - intros _. unfold writeImport. effects.
        right. red. eauto. }
    destruct (HQ s1) as [t [Et Ft]].
    rewrite Forall_forall in Ft. rewrite Hp.
    destruct ((migrateAll w inp rs ;; writeImport w dir rs) s1) as [[u|e0|c] s2];
      cbn [snd exit] in *; rewrite Et, Htr; intros Hin;
      (apply in_app_or in Hin; destruct Hin as [Hin|Hin];
       [ left; auto
       | destruct (Ft e Hin) as [H|H];
         [right; left; exact H | right; right; exact H] ]).
Qed.

(** ** Failures inside the migration *)

Lemma probeLoop_results (w : World) (f : list Repo) (results : list Probed)
    (hc : bool) (s1 : St) :
  probeLoop w f [] false initial = (Val (results, hc), s1) ->
  map repo results = f /\ Forall wellClassified results
  /\ hc = existsb targetExists results.
Proof.
  intros E.
  destruct (probeLoop_spec w f [] false initial) as [rs [s' [E' [Hm [_ Hw]]]]].
  rewrite E in E'. simpl in E'. injection E' as -> -> ->. auto.
Qed.

(** C2, as the code has it.  When step 1 (create, with its polling) or step 3
    (history transfer) of a repository on the Fork path fails, the deletion
    of the target is attempted as the very next action and the whole run ends
    there with exit status 1: the repositories after it are not attempted and
    no artifact is written.  Steps 2, 4-5 and 6 cannot fail the migration:
    disabling the actions, fixing the references and enabling the actions
    again always return normally, whatever their commands answer, and none
    of them deletes anything. *)
Theorem structural_failure_deletes_and_aborts (w : World) (inp : Input) :
  (forall f results s1 pre r rest s2 e s3,
      filteredOf inp = Some f ->
      probeLoop w f [] false initial = (Val (results, false), s1) ->
      dryRun (args inp) = false ->
      filter isFork results = (pre ++ r :: rest)%list ->
      forkLoop w 0 (List.length (filter isFork results)) pre s1 = (Val tt, s2) ->
      stepFails w r s2 e s3 ->
      run w inp = (1, (trace s3 ++ [Exec (GhRepoDelete (name r))])%list))
  /\ (forall targetRepoName s,
        disableGitHubActions w targetRepoName s
        = (Val tt, log (Exec (GhActionsPermissions targetRepoName false)) s))
  /\ (forall repoName s,
        exists s' t,
          fixTeamNames w repoName s = (Val tt, s')
          /\ trace s' = (trace s ++ t)%list
          /\ Forall (fixEvent repoName) t)
  /\ (forall targetRepoName s,
        enableGitHubActions w targetRepoName s
        = (Val tt, log (Exec (GhActionsPermissions targetRepoName true)) s)).
Proof.
  split; [|split; [|split]].
  - intros f results s1 pre r rest s2 e s3 Ef E Hd Hfork Hpre Hfail.
    destruct (probeLoop_results w f results false s1 E) as [Hm _].
    assert (Hne : f <> []).
    { rewrite <- Hm. destruct results; [|discriminate].
      simpl in Hfork. now destruct pre. }
    destruct (script_probed w inp f _ _ _ Ef Hne E) as [dir [_ Es]].
    assert (Hc : createIndependentRepository w (sourceName r) (name r) s2
                 = (Throw e, log (Exec (GhRepoDelete (name r))) s3)).
    { destruct Hfail as [H1 | [b [sa [H1 H3]]]].
      - now apply createIndependentRepository_step1.
      - now apply createIndependentRepository_step3 with (s1 := sa) (b := b). }
    assert (Hm' : migrateAll w inp results s1
                  = (Exit 1, log (Exec (GhRepoDelete (name r))) s3)).
    { assert (Hlen : Nat.eqb (List.length (filter isFork results)) 0 = false).
      { rewrite Hfork, length_app. simpl. now rewrite Nat.add_succ_r. }
      unfold migrateAll. rewrite Hd. cbv zeta. cbn [negb]. rewrite Hlen.
      set (total := List.length (filter isFork results)) in *.
      rewrite Hfork, forkLoop_app, Hpre.
      now apply forkLoop_cons_throw with (e := e). }
    assert (Hs : script w inp initial
                 = (Exit 1, log (Exec (GhRepoDelete (name r))) s3)).
    { rewrite Es. unfold bind at 1. now rewrite Hm'. }
    unfold run. now rewrite Hs.
  - apply disableGitHubActions_eq.
  - apply fixTeamNames_total.
  - apply enableGitHubActions_eq.
Qed.

Lemma structural_failure_deletes_and_aborts_witness :
  let w := hosting allSources [] cloningTlsFails [] EmptyString in
  let inp := input true (Parsed (snapshot [aws; tls; docker])) in
  exists t,
    run w inp = (1, (t ++ [Exec (GhRepoDelete "cdktn-provider-tls")])%list)
    /\ ~ In (Exec (GhRepoCreate "cdktn-provider-docker")) t.
Proof.
  intros w inp.
  destruct (structural_failure_deletes_and_aborts w inp) as [A _].
  set (f := [aws; tls; docker]).
  set (results := [record aws true; record tls true; record docker true]).
  set (s1 := snd (probeLoop w f [] false initial)).
  set (s2 := snd (forkLoop w 0 3 [record aws true] s1)).
  set (sa := snd (createEmptyRepository w "cdktn-provider-tls" s2)).
  set (s3 := snd (migrateRepositoryHistory w "cdktf-provider-tls" "cdktn-provider-tls"
                    (log (Exec (GhActionsPermissions "cdktn-provider-tls" false)) sa))).
  exists (trace s3). split.
  - apply (A f results s1 [record aws true] (record tls true) [record docker true]
             s2 "Command failed" s3).
    + reflexivity.
    + vm_compute. reflexivity.
    + reflexivity.
    + reflexivity.
    + vm_compute. reflexivity.
    + right. exists true, sa. split; vm_compute; reflexivity.
  - vm_compute. intuition discriminate.
Defined.

(** C2 as the specification words it does not hold for step 2: here
    disabling the actions fails for every repository, and yet nothing is
    deleted, the second repository is migrated after the first, the artifact
    is written and the run ends with exit status 0. *)
Lemma disable_failure_neither_deletes_nor_aborts :
  let w := hosting allSources [] disablingFails [] EmptyString in
  let inp := input true (Parsed (snapshot [aws; tls])) in
  (forall s, exec_ok w s (GhActionsPermissions "cdktn-provider-aws" false) = false)
  /\ run w inp
     = (0,
        [ Exec (GhApiRepo "cdktf" "cdktf-provider-aws");
          Exec (GhApiRepo "cdktn-io" "cdktn-provider-aws");
          Exec (GhApiRepo "cdktf" "cdktf-provider-tls");
          Exec (GhApiRepo "cdktn-io" "cdktn-provider-tls");
          Exec (GhRepoCreate "cdktn-provider-aws");
          Exec (GhApiRepo "cdktn-io" "cdktn-provider-aws");
          Exec (GhActionsPermissions "cdktn-provider-aws" false);
          Exec Mktemp;
          Exec (GitCloneBare "cdktf-provider-aws");
          Exec (GitRemoteAdd "cdktn-provider-aws");
          Exec GitPushMirror;
          Exec (RmRf "/tmp/tmp.k3Qw9");
          Exec Mktemp;
          Exec (GhRepoClone "cdktn-provider-aws");
          Exec FindWorkflows;
          Exec (RmRf "/tmp/tmp.k3Qw9");
          Exec (GhActionsPermissions "cdktn-provider-aws" true);
          Sleep 5000;
          Exec (GhRepoCreate "cdktn-provider-tls");
          Exec (GhApiRepo "cdktn-io" "cdktn-provider-tls");
          Exec (GhActionsPermissions "cdktn-provider-tls" false);
          Exec Mktemp;
          Exec (GitCloneBare "cdktf-provider-tls");
          Exec (GitRemoteAdd "cdktn-provider-tls");
          Exec GitPushMirror;
          Exec (RmRf "/tmp/tmp.k3Qw9");
          Exec Mktemp;
          Exec (GhRepoClone "cdktn-provider-tls");
          Exec FindWorkflows;
          Exec (RmRf "/tmp/tmp.k3Qw9");
          Exec (GhActionsPermissions "cdktn-provider-tls" true);
          WriteFile "cdktf.out/stacks/repos/import.tf"
            (generateImportBlocks stamp [record aws true; record tls true]) ])
  /\ ~ In (Exec (GhRepoDelete "cdktn-provider-aws")) (snd (run w inp)).
Proof.
  intros w inp. split; [|split].
  - intros s. reflexivity.
  - vm_compute. reflexivity.
  - vm_compute. intuition discriminate.
Qed.

(** ** Which descriptors are migrated *)

Lemma probed_wellClassified (w : World) (inp : Input) :
  Forall wellClassified (probed w inp).
Proof.
  unfold probed. destruct (filteredOf inp) as [f|]; [|constructor].
  destruct (probeLoop_spec w f [] false initial) as [rs [s' [E [_ [_ Hw]]]]].
  now rewrite E.
Qed.

Lemma migrationEvent_mutatedRepo (r : Probed) (e : Event) (n : string) :
  migrationEvent r e -> mutatedRepo e = Some n ->
  n = name r /\ forall m, e <> Exec (GhWorkflowPermissions m).
Proof.
  intros [H | [H | [H | H]]] Hn.
  - destruct e as [c| |]; [|discriminate..].
    destruct c; simpl in *; try discriminate; try contradiction;
      injection Hn as <-; (split; [|discriminate]);
      try (now destruct H); assumption.
  - destruct e as [c| |]; [|discriminate..].
    destruct c; simpl in *; try discriminate; try contradiction;
      injection Hn as <-; (split; [|discriminate]); assumption.
  - subst e. simpl in Hn. injection Hn as <-. split; [reflexivity|discriminate].
  - subst e. discriminate.
Qed.

Lemma isFork_true (r : Probed) : isFork r = true -> action r = "fork".
Proof. unfold isFork. apply String.eqb_eq. Qed.

Lemma freshNote_lists (repos : list Probed) (r : Probed) :
  In r repos -> action r = "create-fresh" ->
  In ("#   - " ++ name r) (freshNote repos).
Proof.
  intros Hin Ha. unfold freshNote.
  set (fresh := filter _ repos).
  assert (Hf : In r fresh).
  { apply filter_In. split; [exact Hin|]. now apply String.eqb_eq. }
  destruct fresh as [|x fresh]; [contradiction|].
  cbn [List.length Nat.ltb Nat.leb]. right. apply in_or_app. left.
  apply (in_map (fun repo : Probed => "#   - " ++ name repo) _ _ Hf).
Qed.

(** C3, as the code has it.  The migration loop runs over the descriptors
    classified [fork] only.  Every command of a run that creates, deletes,
    clones or changes the settings of a repository of the target
    organisation names a probed descriptor whose source exists, and is issued
    only with [--yes]; so no repository is created and no actions are toggled
    for a CreateFresh descriptor (one whose name no Fork descriptor shares).
    Such a descriptor only shows in the comment list of the artifact. *)
Theorem create_fresh_descriptors_are_not_migrated (w : World) (inp : Input) :
  (forall e n,
      In e (snd (run w inp)) -> mutatedRepo e = Some n ->
      dryRun (args inp) = false
      /\ exists r, In r (probed w inp) /\ name r = n
                   /\ action r = "fork" /\ sourceExists r = true)
  /\ (forall r,
        In r (probed w inp) -> action r = "create-fresh" ->
        (forall r', In r' (probed w inp) -> action r' = "fork" ->
                    name r' <> name r) ->
        forall e, In e (snd (run w inp)) -> mutatedRepo e <> Some (name r))
  /\ (forall r now,
        In r (probed w inp) -> action r = "create-fresh" ->
        In ("#   - " ++ name r) (importLines now (probed w inp))).
Proof.
  assert (A : forall e n,
      In e (snd (run w inp)) -> mutatedRepo e = Some n ->
      dryRun (args inp) = false
      /\ exists r, In r (probed w inp) /\ name r = n
                   /\ action r = "fork" /\ sourceExists r = true).
  { intros e n Hin Hn.
    destruct (run_events w inp e Hin) as [H | [[Hd [r [Hr Hm]]] | [d [c H]]]].
    - destruct e as [c| |]; try contradiction. destruct c; try contradiction.
      discriminate.
    - split; [exact Hd|]. exists r.
      apply filter_In in Hr. destruct Hr as [Hr Hf].
      apply isFork_true in Hf.
      destruct (migrationEvent_mutatedRepo r e n Hm Hn) as [-> _].
      pose proof (probed_wellClassified w inp) as Hw.
      rewrite Forall_forall in Hw. specialize (Hw r Hr). red in Hw.
      repeat split; auto.
      destruct (sourceExists r); [reflexivity|]. rewrite Hw in Hf. discriminate.
    - subst e. discriminate. }
  split; [exact A | split].
  - intros r Hr Ha Hdistinct e Hin Hn.
    destruct (A e (name r) Hin Hn) as [_ [r' [Hr' [Hname [Ha' _]]]]].
    now apply (Hdistinct r' Hr' Ha').
  - intros r now Hr Ha. unfold importLines.
    apply in_or_app. right. apply in_or_app. right.
    now apply freshNote_lists.
Qed.

Lemma create_fresh_descriptors_are_not_migrated_witness :
  let w := hosting ["cdktf-provider-aws"] [] nothingFails [] EmptyString in
  let inp := input true (Parsed (snapshot [aws; tls])) in
  (forall e, In e (snd (run w inp)) ->
             mutatedRepo e <> Some "cdktn-provider-tls")
  /\ In "#   - cdktn-provider-tls" (importLines stamp (probed w inp)).
Proof.
  intros w inp.
  destruct (create_fresh_descriptors_are_not_migrated w inp) as [_ [B C]].
  assert (Hin : In (record tls false) (probed w inp))
    by (vm_compute; auto).
  split.
  - apply (B (record tls false) Hin eq_refl).
    intros r' Hr' Ha'. vm_compute in Hr'.
    destruct Hr' as [<- | [<- | []]]; [discriminate | discriminate].
  - apply (C (record tls false) stamp Hin eq_refl).
Defined.

(** C3 as the specification words it does not hold: with [--yes] and a
    descriptor whose source does not exist, the run probes, writes the
    artifact and ends; the repository is not created and no actions setting
    is touched. *)
Lemma create_fresh_descriptor_is_left_alone :
  let w := hosting [] [] nothingFails [] EmptyString in
  let inp := input true (Parsed (snapshot [aws])) in
  probed w inp = [record aws false]
  /\ action (record aws false) = "create-fresh"
  /\ dryRun (args inp) = false
  /\ run w inp
     = (0,
        [ Exec (GhApiRepo "cdktf" "cdktf-provider-aws");
          Exec (GhApiRepo "cdktn-io" "cdktn-provider-aws");
          WriteFile "cdktf.out/stacks/repos/import.tf"
            (generateImportBlocks stamp [record aws false]) ])
  /\ ~ In (Exec (GhRepoCreate "cdktn-provider-aws")) (snd (run w inp))
  /\ ~ In (Exec (GhActionsPermissions "cdktn-provider-aws" false)) (snd (run w inp))
  /\ ~ In (Exec (GhActionsPermissions "cdktn-provider-aws" true)) (snd (run w inp)).
Proof.
  intros w inp. repeat split; try (vm_compute; reflexivity);
    vm_compute; intuition discriminate.
Qed.

(** ** The last step of a migration *)

Lemma migrationEvent_no_grant (r : Probed) (e : Event) (n : string) :
  migrationEvent r e -> e <> Exec (GhWorkflowPermissions n).
Proof.
  intros [H | [H | [H | H]]] ->; simpl in H; try contradiction; discriminate.
Qed.

(** C4, as the code has it.  Once the repository of a Fork descriptor has
    been created and filled, the iteration fixes the references and then, as
    its last command, enables the actions again ([GhActionsPermissions] with
    [true]); only the delay before the next repository follows.  No run
    issues the call that lets workflow runs approve pull requests:
    [enableActionsToApprovePRs] is defined and [main] never calls it. *)
Theorem last_step_enables_actions_only (w : World) (inp : Input) :
  (forall e n, In e (snd (run w inp)) -> e <> Exec (GhWorkflowPermissions n))
  /\ (forall i total (r : Probed) (rest : list Probed) s b s1,
        createIndependentRepository w (sourceName r) (name r) s = (Val b, s1) ->
        exists s2 t,
          fixTeamNames w (name r) s1 = (Val tt, s2)
          /\ trace s2 = (trace s1 ++ t)%list
          /\ Forall (fixEvent (name r)) t
          /\ forkLoop w i total (r :: rest) s
             = forkLoop w (S i) total rest
                 (let s3 := log (Exec (GhActionsPermissions (name r) true)) s2 in
                  if Nat.ltb i (total - 1) then log (Sleep 5000) s3 else s3)).
Proof.
  split.
  - intros e n Hin.
    destruct (run_events w inp e Hin) as [H | [[_ [r [_ Hm]]] | [d [c H]]]].
    + intros ->. contradiction.
    + now apply (migrationEvent_no_grant r).
    + subst e. discriminate.
  - intros i total r rest s b s1 Hc.
    destruct (fixTeamNames_total w (name r) s1) as [s2 [t [Hf [Ht HF]]]].
    exists s2, t. repeat split; auto.
    now apply forkLoop_cons_created with (s1 := s1) (b := b).
Qed.

Lemma last_step_enables_actions_only_witness :
  let w := bare in
  let r := record aws true in
  let s := snd (probeLoop w [aws] [] false initial) in
  let s1 := snd (createIndependentRepository w (sourceName r) (name r) s) in
  exists s2 t,
    fixTeamNames w (name r) s1 = (Val tt, s2)
    /\ trace s2 = (trace s1 ++ t)%list
    /\ Forall (fixEvent (name r)) t
    /\ forkLoop w 0 1 [r] s
       = (Val tt, log (Exec (GhActionsPermissions "cdktn-provider-aws" true)) s2).
Proof.
  intros w r s s1.
  destruct (last_step_enables_actions_only w (input true (Parsed (snapshot [aws]))))
    as [_ B].
  destruct (B 0 1 r [] s true s1) as [s2 [t [H1 [H2 [H3 H4]]]]].
  - vm_compute. reflexivity.
  - exists s2, t. repeat split; auto.
Defined.

(** C4 as the specification words it does not hold: in this run everything
    succeeds, the actions of the new repository are enabled again, and the
    pull-request approval permission is never set. *)
Lemma successful_migration_grants_no_pr_approval :
  let w := bare in
  let inp := input true (Parsed (snapshot [aws])) in
  run w inp
  = (0,
     [ Exec (GhApiRepo "cdktf" "cdktf-provider-aws");
       Exec (GhApiRepo "cdktn-io" "cdktn-provider-aws");
       Exec (GhRepoCreate "cdktn-provider-aws");
       Exec (GhApiRepo "cdktn-io" "cdktn-provider-aws");
       Exec (GhActionsPermissions "cdktn-provider-aws" false);
       Exec Mktemp;
       Exec (GitCloneBare "cdktf-provider-aws");
       Exec (GitRemoteAdd "cdktn-provider-aws");
       Exec GitPushMirror;
       Exec (RmRf "/tmp/tmp.k3Qw9");
       Exec Mktemp;
       Exec (GhRepoClone "cdktn-provider-aws");
       Exec FindWorkflows;
       Exec (RmRf "/tmp/tmp.k3Qw9");
       Exec (GhActionsPermissions "cdktn-provider-aws" true);
       WriteFile "cdktf.out/stacks/repos/import.tf"
         (generateImportBlocks stamp [record aws true]) ])
  /\ ~ In (Exec (GhWorkflowPermissions "cdktn-provider-aws")) (snd (run w inp)).
Proof.
  intros w inp. split.
  - vm_compute. reflexivity.
  - vm_compute. intuition discriminate.
Qed.

(** ** Conflicts *)

Lemma conflict_aborts_before_any_mutation_witness :
  let w := hosting allSources ["cdktn-provider-tls"] nothingFails [] EmptyString in
  let inp := input true (Parsed (snapshot [aws; tls])) in
  fst (run w inp) = 1 /\ Forall isProbe (snd (run w inp)).
Proof.
  intros w inp. apply conflict_aborts_before_any_mutation.
  exists {| repo := tls; sourceExists := true; targetExists := true;
            action := "fork" |}.
  split; [|reflexivity]. vm_compute. auto.
Defined.

(** ** The snapshot *)

Lemma filterRepositories_nil (only : option (list string)) (exclude : list string) :
  filterRepositories [] only exclude = [].
Proof.
  unfold filterRepositories.
  destruct only as [o|]; [destruct (Nat.ltb 0 (List.length o))|];
    destruct (Nat.ltb 0 (List.length exclude)); reflexivity.
Qed.

Lemma parseCdkTfJson_absent (j : CdkTfJson) :
  collectionAbsent j -> parseCdkTfJson j = [].
Proof.
  unfold collectionAbsent, parseCdkTfJson, githubRepos.
  destruct (resource j) as [types|]; [|reflexivity].
  now intros ->.
Qed.

(** C9, as the code has it.  A snapshot file that is missing, or that does
    not parse, ends the run with exit status 1 before anything is done.  A
    snapshot without the repository collection is not an error: the
    collection defaults to the empty object, no descriptor is extracted, and
    a run that passes the checks on its arguments ends with exit status 0,
    again before anything is done. *)
Theorem snapshot_validation (w : World) (inp : Input) :
  (cdkTfJsonFile inp = Missing -> run w inp = (1, []))
  /\ (cdkTfJsonFile inp = Malformed -> run w inp = (1, []))
  /\ (forall j,
        cdkTfJsonFile inp = Parsed j -> collectionAbsent j ->
        parseCdkTfJson j = []
        /\ forall f, filteredOf inp = Some f -> f = [] /\ run w inp = (0, [])).
Proof.
  split; [|split].
  - intros H. unfold run, script.
    destruct (stackDir (args inp)); [|reflexivity].
    destruct (_ && _)%bool; [reflexivity|].
    destruct (negb (stackDirExists inp)); [reflexivity|].
    now rewrite H.
  - intros H. unfold run, script.
    destruct (stackDir (args inp)); [|reflexivity].
    destruct (_ && _)%bool; [reflexivity|].
    destruct (negb (stackDirExists inp)); [reflexivity|].
    unfold main. now rewrite H.
  - intros j Hj Ha. pose proof (parseCdkTfJson_absent j Ha) as Hp.
    split; [exact Hp|]. intros f Ef.
    assert (f = []).
    { unfold filteredOf in Ef.
      destruct (stackDir (args inp)); [|discriminate].
      destruct (_ && _)%bool; [discriminate|].
      destruct (negb (stackDirExists inp)); [discriminate|].
      rewrite Hj, Hp, filterRepositories_nil in Ef. now injection Ef. }
    subst f. split; [reflexivity|].
    unfold run. now rewrite (script_empty w inp Ef).
Qed.

Lemma snapshot_validation_witness :
  run bare (input true Missing) = (1, [])
  /\ run bare (input true Malformed) = (1, [])
  /\ run bare (input true (Parsed {| resource := None |})) = (0, []).
Proof.
  split; [|split].
  - apply (proj1 (snapshot_validation bare (input true Missing))). reflexivity.
  - apply (proj1 (proj2 (snapshot_validation bare (input true Malformed)))).
    reflexivity.
  - destruct (snapshot_validation bare (input true (Parsed {| resource := None |})))
      as [_ [_ H]].
    destruct (H {| resource := None |} eq_refl I) as [_ H'].
    apply (H' []). reflexivity.
Defined.

(** C9 as the specification words it does not hold: a snapshot that has
    resources but no repository collection is accepted, and the run ends with
    exit status 0. *)
Lemma absent_collection_is_not_an_error :
  collectionAbsent snapshotWithoutRepositories
  /\ parseCdkTfJson snapshotWithoutRepositories = []
  /\ run bare (input true (Parsed snapshotWithoutRepositories)) = (0, [])
  /\ fst (run bare (input true (Parsed snapshotWithoutRepositories))) <> 1.
Proof.
  repeat split; try reflexivity. vm_compute. discriminate.
Qed.

(** ** The artifact *)

(** C5. The generated document depends on the time of the run in one place
    only.  Its lines are a fixed first line, then the line that carries the
    timestamp, then lines that are a function of the list of repositories;
    so for the same list two runs give the same bytes but for that line. *)
Theorem generateImportBlocks_deterministic_but_for_timestamp (repos : list Probed) :
  exists first rest suffix,
    (forall now,
        importLines now repos = first :: ("# Generated at: " ++ now) :: rest)
    /\ (forall now,
          generateImportBlocks now repos
          = first ++ newline ++ "# Generated at: " ++ now ++ newline ++ suffix).
Proof.
  exists "# Generated by fork-and-import.js".
  exists (tl (tl (importLines EmptyString repos))).
  exists (joinLines (tl (tl (importLines EmptyString repos)))).
  split; intros now.
  - reflexivity.
  - unfold generateImportBlocks, joinLines, importLines, header.
    cbn [app tl String.concat].
    now rewrite append_assoc.
Qed.

(** ** The two filters *)

Lemma filterRepositories_partition_witness :
  let S := [aws; tls; docker] in
  let X := ["cdktn-provider-tls"] in
  Permutation (filterRepositories S (Some X) [] ++ filterRepositories S None X) S
  /\ forall r, ~ (In r (filterRepositories S (Some X) [])
                  /\ In r (filterRepositories S None X)).
Proof.
  intros S X.
  destruct (filterRepositories_partition S X) as [H _].
  destruct H as [_ [H2 H3]]; [discriminate|].
  split; assumption.
Defined.

(** C7 as the specification words it does not hold for the empty selection:
    both calls return the whole list, so the two results share every
    descriptor. *)
Lemma empty_selection_keeps_everything_twice :
  filterRepositories [aws; tls] (Some []) [] = [aws; tls]
  /\ filterRepositories [aws; tls] None [] = [aws; tls]
  /\ In aws (filterRepositories [aws; tls] (Some []) [])
  /\ In aws (filterRepositories [aws; tls] None []).
Proof.
  repeat split; try reflexivity; now left.
Qed.

(** ** Fixing the references *)

(** C8. The claim is that a file is rewritten only when it holds a legacy
    token and that the commit and push happen exactly when some file changed.
    [fixTeamNames] misses both on the CODEOWNERS file, which it rewrites and
    counts without looking for the token, and on the early return for a clone
    without workflows.
    - In [upToDate] no file holds a legacy token; CODEOWNERS is written all
      the same, [filesChanged] is 1, and the commit is attempted.
    - In [legacyOwners] CODEOWNERS holds the legacy handle and is rewritten
      with the new one; there is no workflow, the function returns, and
      nothing is committed or pushed. *)
Theorem fixTeamNames_commit_does_not_follow_changes :
  existsb (fun file => holdsLegacyToken (snd file)) upToDateFiles = false
  /\ trace (snd (fixTeamNames upToDate "cdktn-provider-aws" initial))
     = [ Exec Mktemp;
         Exec (GhRepoClone "cdktn-provider-aws");
         WriteFile ".github/CODEOWNERS" ("* @cdktn-io/team-cdk-terrain" ++ newline);
         Exec FindWorkflows;
         Exec GitConfigUserName;
         Exec GitConfigUserEmail;
         Exec GitAddWorkflows;
         Exec GitCommit;
         Exec (RmRf "/tmp/tmp.k3Qw9") ]
  /\ existsb (fun file => holdsLegacyToken (snd file)) legacyOwnersFiles = true
  /\ trace (snd (fixTeamNames legacyOwners "cdktn-provider-aws" initial))
     = [ Exec Mktemp;
         Exec (GhRepoClone "cdktn-provider-aws");
         WriteFile ".github/CODEOWNERS" ("* @cdktn-io/team-cdk-terrain" ++ newline);
         Exec FindWorkflows;
         Exec (RmRf "/tmp/tmp.k3Qw9") ].
Proof.
  split; [|split; [|split]].
  - reflexivity.
  - vm_compute. reflexivity.
  - reflexivity.
  - vm_compute. reflexivity.
Qed.

(** * Further properties of the script *)

(** ** More on strings *)

Lemma append_nil_r (s : string) : s ++ EmptyString = s.
Proof. induction s as [|c s IH]; simpl; [reflexivity | now rewrite IH]. Qed.

Lemma append_inv_head (a x y : string) : a ++ x = a ++ y -> x = y.
Proof.
  induction a as [|c a IH]; simpl; intros H; [exact H|].
  injection H as H. now apply IH.
Qed.

Lemma append_eq_nil (a b : string) :
  a ++ b = EmptyString -> a = EmptyString /\ b = EmptyString.
Proof. destruct a; simpl; [auto | discriminate]. Qed.

Lemma length_append (a b : string) :
  String.length (a ++ b) = String.length a + String.length b.
Proof. induction a as [|c a IH]; simpl; [reflexivity | now rewrite IH]. Qed.

(** Two ways of cutting the same string. *)
Lemma append_eq_append (a b c d : string) :
  a ++ b = c ++ d ->
  exists m, (a = c ++ m /\ d = m ++ b) \/ (c = a ++ m /\ b = m ++ d).
Proof.
  revert c; induction a as [|x a IH]; intros c H; simpl in H.
  - exists c. right. auto.
  - destruct c as [|y c]; simpl in H.
    + exists (String x a). left. auto.
    + injection H as -> H. destruct (IH c H) as [m [[-> ->] | [-> ->]]];
        exists m; [left | right]; auto.
Qed.

Lemma prefix_iff (p s : string) :
  String.prefix p s = true <-> exists r, s = p ++ r.
Proof.
  rewrite prefix_stripPrefix. split; intros [r H]; exists r.
  - now apply stripPrefix_Some.
  - subst s. apply stripPrefix_app.
Qed.

Lemma prefix_append_same (a p s : string) :
  String.prefix (a ++ p) (a ++ s) = String.prefix p s.
Proof.
  induction a as [|c a IH]; simpl; [reflexivity|].
  destruct (ascii_dec c c) as [_|N]; [exact IH | now elim N].
Qed.

Lemma prefix_trans (a b c : string) :
  String.prefix a b = true -> String.prefix b c = true -> String.prefix a c = true.
Proof.
  rewrite !prefix_iff. intros [r ->] [r' ->]. exists (r ++ r').
  apply append_assoc.
Qed.

Lemma includes_iff (needle s : string) :
  includes needle s = true <-> exists pre post, s = pre ++ needle ++ post.
Proof.
  induction s as [|c s IH].
  - cbn [includes]. destruct (String.prefix needle EmptyString) eqn:E.
    + split; [intros _ | reflexivity].
      apply prefix_iff in E. destruct E as [r E]. now exists EmptyString, r.
    + split; [discriminate|]. intros [pre [post H]].
      symmetry in H. apply append_eq_nil in H. destruct H as [-> H].
      assert (String.prefix needle EmptyString = true)
        by (apply prefix_iff; exists post; now rewrite H).
      congruence.
  - cbn [includes]. destruct (String.prefix needle (String c s)) eqn:E.
    + split; [intros _ | reflexivity].
      apply prefix_iff in E. destruct E as [r E]. now exists EmptyString, r.
    + rewrite IH. split.
      * intros [pre [post ->]]. now exists (String c pre), post.
      * intros [pre [post H]]. destruct pre as [|x pre]; simpl in H.
        -- assert (String.prefix needle (String c s) = true)
             by (apply prefix_iff; now exists post).
           congruence.
        -- injection H as _ ->. now exists pre, post.
Qed.

Lemma includes_false (needle s pre post : string) :
  includes needle s = false -> s <> pre ++ needle ++ post.
Proof.
  intros H E. assert (includes needle s = true) by (apply includes_iff; eauto).
  congruence.
Qed.

(** A string that holds [b] holds every [a] that [b] holds. *)
Lemma includes_trans (a b s : string) :
  includes a b = true -> includes b s = true -> includes a s = true.
Proof.
  rewrite !includes_iff. intros [p [q ->]] [pre [post ->]].
  exists (pre ++ p), (q ++ post). now rewrite !append_assoc.
Qed.

(** ** The target flags *)

Lemma matchesFilteredRepo_iff (repoNames : list string) (resourceName : string) :
  matchesFilteredRepo repoNames resourceName = true
  <-> exists repoName rest,
        In repoName repoNames /\ resourceName = repoName ++ "_" ++ rest.
Proof.
  unfold matchesFilteredRepo, startsWith. rewrite existsb_exists. split.
  - intros [n [Hin H]]. apply prefix_iff in H. destruct H as [rest ->].
    exists n, rest. split; [exact Hin | apply append_assoc].
  - intros [n [rest [Hin ->]]]. exists n. split; [exact Hin|].
    apply prefix_iff. exists rest. symmetry. apply append_assoc.
Qed.

Lemma generateTerraformTargets_In (cdkTfJson : CdkTfJson)
    (filteredRepos : list Repo) (flag : string) :
  In flag (generateTerraformTargets cdkTfJson filteredRepos)
  <-> exists types resourceType instances resourceName config r rest,
        resource cdkTfJson = Some types
        /\ In (resourceType, instances) types
        /\ In (resourceName, config) instances
        /\ In r filteredRepos
        /\ resourceName = name r ++ "_" ++ rest
        /\ flag = "-target=" ++ resourceType ++ "." ++ resourceName.
Proof.
  unfold generateTerraformTargets. cbv zeta. rewrite in_flat_map. split.
  - intros [[resourceType instances] [Ht Hf]].
    rewrite in_flat_map in Hf. destruct Hf as [[resourceName config] [Hi Hm]].
    cbn [fst snd] in Hm.
    destruct (matchesFilteredRepo _ resourceName) eqn:E; [|contradiction].
    destruct Hm as [<- | []].
    apply matchesFilteredRepo_iff in E. destruct E as [n [rest [Hn ->]]].
    apply in_map_iff in Hn. destruct Hn as [r [<- Hr]].
    destruct (resource cdkTfJson) as [types|]; [|contradiction].
    exists types, resourceType, instances, (name r ++ "_" ++ rest), config, r, rest.
    repeat split; auto.
  - intros [types [resourceType [instances [resourceName [config [r [rest
      [Hj [Ht [Hi [Hr [Hn ->]]]]]]]]]]]].
    rewrite Hj. exists (resourceType, instances). split; [exact Ht|].
    rewrite in_flat_map. exists (resourceName, config). split; [exact Hi|].
    cbn [fst snd].
    replace (matchesFilteredRepo (map name filteredRepos) resourceName) with true.
    + now left.
    + symmetry. apply matchesFilteredRepo_iff. exists (name r), rest.
      split; [now apply in_map | exact Hn].
Qed.

(** X1. [generateTerraformTargets] yields a flag [-target=<type>.<name>] for
    exactly the resources of the snapshot, of any type, whose name is the name
    of a filtered repository followed by an underscore and anything; without
    a [resource] object, or without filtered repositories, there is none. *)
Theorem generateTerraformTargets_selects (cdkTfJson : CdkTfJson)
    (filteredRepos : list Repo) :
  (forall flag,
      In flag (generateTerraformTargets cdkTfJson filteredRepos)
      <-> exists types resourceType instances resourceName config r rest,
            resource cdkTfJson = Some types
            /\ In (resourceType, instances) types
            /\ In (resourceName, config) instances
            /\ In r filteredRepos
            /\ resourceName = name r ++ "_" ++ rest
            /\ flag = "-target=" ++ resourceType ++ "." ++ resourceName)
  /\ generateTerraformTargets {| resource := None |} filteredRepos = []
  /\ generateTerraformTargets cdkTfJson [] = [].
Proof.
  split; [|split].
  - intros flag. apply generateTerraformTargets_In.
  - reflexivity.
  - destruct (generateTerraformTargets cdkTfJson []) as [|flag l] eqn:E;
      [reflexivity|].
    assert (H : In flag (generateTerraformTargets cdkTfJson []))
      by (rewrite E; now left).
    apply generateTerraformTargets_In in H.
    destruct H as [? [? [? [? [? [? [? [_ [_ [_ [[] _]]]]]]]]]]].
Qed.

(** X2. The underscore bounds the name: against the single repository name
    [n], a resource named [n] followed by a character [c] and anything is
    matched exactly when [c] is the underscore.  So repository [foo] does not
    select [foo-bar_widget]. *)
Theorem matchesFilteredRepo_delimiter (n : string) (c : ascii) (rest : string) :
  matchesFilteredRepo [n] (n ++ String c rest) = Ascii.eqb c "_".
Proof.
  unfold matchesFilteredRepo, startsWith. cbn [existsb].
  rewrite orb_false_r, prefix_append_same. cbn [String.prefix].
  destruct (ascii_dec "_" c) as [<-|N].
  - destruct rest; reflexivity.
  - symmetry. apply Ascii.eqb_neq. congruence.
Qed.

(** X3. The test is a prefix test and nothing more: when the name of [r2] is
    itself the name of [r1] followed by an underscore and anything, selecting
    [r1] also selects every resource of [r2]. *)
Theorem generateTerraformTargets_prefix_overlap (cdkTfJson : CdkTfJson)
    (r1 r2 : Repo) (flag : string) :
  startsWith (name r1 ++ "_") (name r2) = true ->
  In flag (generateTerraformTargets cdkTfJson [r2]) ->
  In flag (generateTerraformTargets cdkTfJson [r1]).
Proof.
  intros Hp. rewrite !generateTerraformTargets_In.
  intros [types [resourceType [instances [resourceName [config [r [rest
      [Hj [Ht [Hi [Hr [Hn ->]]]]]]]]]]]].
  destruct Hr as [<- | []].
  apply prefix_iff in Hp. destruct Hp as [mid Hp].
  exists types, resourceType, instances, resourceName, config, r1,
    (mid ++ "_" ++ rest).
  split; [exact Hj|]. split; [exact Ht|]. split; [exact Hi|].
  split; [now left|]. split; [|reflexivity].
  rewrite Hn, Hp. now rewrite !append_assoc.
Qed.

Lemma generateTerraformTargets_prefix_overlap_witness :
  let r1 := {| resourceName := "tools_repo_1"; name := "tools";
               sourceName := "tools" |} in
  let r2 := {| resourceName := "tools_cli_repo_2"; name := "tools_cli";
               sourceName := "tools_cli" |} in
  In "-target=github_repository.tools_cli_repo_2"
     (generateTerraformTargets (snapshot [r1; r2]) [r1]).
Proof.
  intros r1 r2.
  apply (generateTerraformTargets_prefix_overlap (snapshot [r1; r2]) r1 r2).
  - reflexivity.
  - vm_compute. auto.
Defined.

(** ** The command line *)

Lemma splitOn_nonempty (sep : ascii) (s : string) : splitOn sep s <> [].
Proof.
  induction s as [|c s IH]; simpl; [discriminate|].
  destruct (Ascii.eqb c sep); [discriminate|].
  destruct (splitOn sep s); [contradiction | discriminate].
Qed.

Lemma flagNames_nonempty (flag : string) : flagNames flag <> [].
Proof.
  unfold flagNames. intros H. apply map_eq_nil in H.
  now apply splitOn_nonempty in H.
Qed.

Lemma find_exists {A : Type} (p : A -> bool) (l : list A) (a : A) :
  In a l -> p a = true -> exists x, find p l = Some x.
Proof.
  intros Hin Hp. destruct (find p l) as [x|] eqn:E; [eauto|].
  rewrite (find_none p l E a Hin) in Hp. discriminate.
Qed.

Lemma arrIncludes_In (arr : list string) (x : string) :
  arrIncludes arr x = true <-> In x arr.
Proof.
  unfold arrIncludes. rewrite existsb_exists. split.
  - intros [y [Hin H]]. apply String.eqb_eq in H. now subst y.
  - intros Hin. exists x. split; [exact Hin | apply String.eqb_refl].
Qed.

Lemma find_none_iff {A : Type} (p : A -> bool) (l : list A) :
  find p l = None <-> forall a, In a l -> p a = false.
Proof.
  split; [apply find_none|]. intros H.
  destruct (find p l) as [x|] eqn:E; [|reflexivity].
  apply find_some in E. destruct E as [Hin Hp].
  rewrite (H x Hin) in Hp. discriminate.
Qed.

(** X4. The selections come from the first argument that starts with
    [--only=] and the first that starts with [--exclude=].  [onlyRepos] is
    [null] exactly when no argument starts with [--only=], and [excludeRepos]
    is empty exactly when none starts with [--exclude=].  A selection that
    comes from an argument is never the empty list: a flag without a value
    gives the list that holds the empty name.  So with [--only=...] the guard
    [length > 0] of [filterRepositories] always passes and the list is a
    whitelist. *)
Theorem parsed_selection_is_never_empty (argv : list string) :
  (onlyRepos (parseArgs argv) = None
   <-> forall a, In a argv -> startsWith "--only=" a = false)
  /\ (forall only,
        onlyRepos (parseArgs argv) = Some only ->
        only <> []
        /\ (exists flag, In flag argv /\ startsWith "--only=" flag = true
                         /\ only = flagNames flag)
        /\ forall repos,
             filterRepositories repos (Some only) []
             = filter (fun repo => arrIncludes only (name repo)) repos)
  /\ (excludeRepos (parseArgs argv) = []
      <-> forall a, In a argv -> startsWith "--exclude=" a = false)
  /\ (excludeRepos (parseArgs argv) <> [] ->
      exists flag, In flag argv /\ startsWith "--exclude=" flag = true
                   /\ excludeRepos (parseArgs argv) = flagNames flag)
  /\ flagNames "--only=" = [EmptyString]
  /\ flagNames "--exclude=" = [EmptyString].
Proof.
  unfold parseArgs. cbn [onlyRepos excludeRepos].
  split; [|split; [|split; [|split; [|split]]]].
  - rewrite <- find_none_iff.
    destruct (find (startsWith "--only=") argv); split; congruence.
  - intros only H.
    destruct (find (startsWith "--only=") argv) as [flag|] eqn:E; [|discriminate].
    injection H as <-. pose proof (flagNames_nonempty flag) as Hne.
    apply find_some in E. destruct E as [Hin Hp].
    split; [exact Hne | split; [now exists flag|]].
    intros repos. now apply filterRepositories_only.
  - rewrite <- find_none_iff.
    destruct (find (startsWith "--exclude=") argv) as [flag|]; split;
      try congruence.
    intros H. now apply flagNames_nonempty in H.
  - destruct (find (startsWith "--exclude=") argv) as [flag|] eqn:E;
      [|congruence].
    intros _. apply find_some in E. destruct E as [Hin Hp]. now exists flag.
  - reflexivity.
  - reflexivity.
Qed.

Lemma parsed_selection_is_never_empty_witness :
  onlyRepos (parseArgs ["cdktf.out/stacks/repos"; "--only="; "--yes"])
  = Some [EmptyString]
  /\ filterRepositories [aws; tls; docker] (Some [EmptyString]) [] = [].
Proof.
  split; [reflexivity|].
  destruct (parsed_selection_is_never_empty
              ["cdktf.out/stacks/repos"; "--only="; "--yes"]) as [_ [H _]].
  destruct (H [EmptyString] eq_refl) as [_ [_ H3]].
  rewrite (H3 [aws; tls; docker]). reflexivity.
Defined.

(** X5. Usage errors end the run with exit status 1 before anything is done:
    a command line on which every argument starts with [--] (no stack
    directory), and a command line that has both an [--only=] and an
    [--exclude=] argument, whatever their values. *)
Theorem usage_error_exits_1 (w : World) (argv : list string)
    (stackDirExists : bool) (file : SnapshotFile) :
  (forall a, In a argv -> startsWith "--" a = true)
  \/ (exists a b, In a argv /\ startsWith "--only=" a = true
                  /\ In b argv /\ startsWith "--exclude=" b = true) ->
  run w (invoke argv stackDirExists file) = (1, []).
Proof.
  intros H. unfold run, script, invoke. cbn [args stackDir onlyRepos excludeRepos parseArgs].
  destruct (find (fun arg => negb (startsWith "--" arg)) argv) as [dir|] eqn:Ed;
    [|reflexivity].
  destruct H as [H | [a [b [Ha [Hpa [Hb Hpb]]]]]].
  - apply find_some in Ed. destruct Ed as [Hin Hp].
    rewrite (H dir Hin) in Hp. discriminate.
  - destruct (find_exists _ _ a Ha Hpa) as [fa ->].
    destruct (find_exists _ _ b Hb Hpb) as [fb ->].
    pose proof (flagNames_nonempty fb) as Hne.
    destruct (flagNames fb); [contradiction | reflexivity].
Qed.

Lemma usage_error_exits_1_witness :
  run bare (invoke ["--yes"] true (Parsed (snapshot [aws]))) = (1, [])
  /\ run bare (invoke ["cdktf.out/stacks/repos"; "--only=cdktn-provider-aws";
                       "--exclude="; "--yes"]
                 true (Parsed (snapshot [aws]))) = (1, []).
Proof.
  split; apply usage_error_exits_1.
  - left. intros a [<- | []]. reflexivity.
  - right. exists "--only=cdktn-provider-aws", "--exclude=".
    repeat split; simpl; auto.
Defined.

(** X6. Without the argument [--yes] the script changes nothing remotely:
    whatever the command line, the snapshot and the answers of the hosting
    service are, everything such a run does is an existence query or the
    write of [import.tf]. *)
Theorem without_yes_nothing_is_migrated (w : World) (argv : list string)
    (stackDirExists : bool) (file : SnapshotFile) :
  ~ In "--yes" argv ->
  Forall (fun e => isProbe e \/ isImportWrite e)
         (snd (run w (invoke argv stackDirExists file))).
Proof.
  intros Hy. apply Forall_forall. intros e He.
  destruct (run_events w _ e He) as [H | [[Hd _] | H]]; auto.
  exfalso. apply Hy. apply arrIncludes_In.
  cbn [invoke args parseArgs dryRun] in Hd.
  now apply negb_false_iff in Hd.
Qed.

Lemma without_yes_nothing_is_migrated_witness :
  Forall (fun e => isProbe e \/ isImportWrite e)
         (snd (run bare (invoke ["cdktf.out/stacks/repos"; "--exclude=cdktn-provider-tls"]
                           true (Parsed (snapshot [aws; tls; docker]))))).
Proof.
  apply without_yes_nothing_is_migrated.
  simpl. intuition discriminate.
Defined.

(** ** Replacing every occurrence *)

Lemma prefix_append_self (p r : string) : String.prefix p (p ++ r) = true.
Proof. apply prefix_iff. now exists r. Qed.

Lemma replaceAll_from_skip (pat rep a s : string) :
  replaceAll_from pat rep (String.length a) (a ++ s) = replaceAll_from pat rep 0 s.
Proof. induction a as [|c a IH]; simpl; [reflexivity | exact IH]. Qed.

Lemma replaceAll_from_match (pat rep rest : string) :
  pat <> EmptyString ->
  replaceAll_from pat rep 0 (pat ++ rest)
  = rep ++ replaceAll_from pat rep 0 rest.
Proof.
  intros Hp. destruct pat as [|c p]; [congruence|].
  change (String c p ++ rest) with (String c (p ++ rest)) at 1.
  cbn [replaceAll_from].
  change (String c (p ++ rest)) with (String c p ++ rest).
  rewrite prefix_append_self.
  replace (String.length (String c p) - 1) with (String.length p)
    by (simpl; lia).
  now rewrite replaceAll_from_skip.
Qed.

Lemma replaceAll_from_copy (pat rep : string) (c : ascii) (s : string) :
  String.prefix pat (String c s) = false ->
  replaceAll_from pat rep 0 (String c s)
  = String c (replaceAll_from pat rep 0 s).
Proof. intros H. cbn [replaceAll_from]. now rewrite H. Qed.

Lemma replaceAll_nonempty (pat rep s : string) :
  pat <> EmptyString -> replaceAll pat rep s = replaceAll_from pat rep 0 s.
Proof. destruct pat; [congruence | reflexivity]. Qed.

Lemma includes_cons_false (needle : string) (c : ascii) (s : string) :
  includes needle (String c s) = false ->
  String.prefix needle (String c s) = false /\ includes needle s = false.
Proof.
  cbn [includes]. destruct (String.prefix needle (String c s)); [discriminate|].
  auto.
Qed.

(** Without an occurrence of the pattern nothing is replaced. *)
Lemma replaceAll_absent (pat rep s : string) :
  includes pat s = false -> replaceAll pat rep s = s.
Proof.
  intros H. destruct pat as [|x pat].
  - destruct s; discriminate.
  - rewrite replaceAll_nonempty by discriminate.
    induction s as [|c s IH]; [reflexivity|].
    apply includes_cons_false in H. destruct H as [Hp Hi].
    rewrite replaceAll_from_copy by exact Hp. now rewrite IH.
Qed.

Lemma snoc_split (u v a : string) (c : ascii) :
  u ++ String c EmptyString = v ++ a -> a <> EmptyString ->
  exists a', a = a' ++ String c EmptyString /\ u = v ++ a'.
Proof.
  intros H Ha. destruct (append_eq_append _ _ _ _ H) as [m [[Hu Hm] | [Hv Hm]]].
  - exists m. auto.
  - destruct m as [|x m]; simpl in Hm.
    + exists EmptyString. subst a v. rewrite !append_nil_r. auto.
    + injection Hm as _ Hm. symmetry in Hm. apply append_eq_nil in Hm.
      destruct Hm as [_ Hm]. contradiction.
Qed.

Lemma append_snoc (u : string) (c : ascii) (s : string) :
  u ++ String c s = (u ++ String c EmptyString) ++ s.
Proof. now rewrite append_assoc. Qed.

Lemma suffixesAvoid_sound (rep a b : string) :
  suffixesAvoid (a ++ b) rep = true ->
  a <> EmptyString -> b <> EmptyString -> String.prefix b rep = false.
Proof.
  induction a as [|x a IH]; intros H Ha Hb; [congruence|].
  cbn [append suffixesAvoid] in H.
  destruct (a ++ b) as [|y t] eqn:E.
  - apply append_eq_nil in E. destruct E as [_ E]. contradiction.
  - apply andb_true_iff in H. destruct H as [H1 H2].
    destruct a as [|z a].
    + simpl in E. subst b. now apply negb_true_iff in H1.
    + apply IH; [exact H2 | discriminate | exact Hb].
Qed.

Lemma occurs_false (z : ascii) (a b : string) :
  occurs z (a ++ String z b) = true.
Proof.
  induction a as [|c a IH]; simpl.
  - now rewrite Ascii.eqb_refl.
  - rewrite IH. apply orb_true_r.
Qed.

Lemma lastChar_snoc (s : string) (z : ascii) :
  lastChar s = Some z -> exists r0, s = r0 ++ String z EmptyString.
Proof.
  revert z; induction s as [|c s IH]; intros z H; [discriminate|].
  cbn [lastChar] in H. destruct (lastChar s) as [y|] eqn:E.
  - injection H as ->. destruct (IH z eq_refl) as [r0 ->].
    now exists (String c r0).
  - injection H as ->. destruct s; [|simpl in E; destruct (lastChar s); discriminate].
    now exists EmptyString.
Qed.

Section Avoid.

Variables pat rep : string.

Hypothesis pat_nonempty : pat <> EmptyString.
Hypothesis rep_without : forall pre post, rep <> pre ++ pat ++ post.
Hypothesis no_overlap :
  forall a b, pat = a ++ b -> a <> EmptyString -> b <> EmptyString ->
              String.prefix b rep = false.
Hypothesis rep_end :
  exists r0 z, rep = r0 ++ String z EmptyString
               /\ forall a b, pat <> a ++ String z b.

Let without (u : string) : Prop := forall pre post, u <> pre ++ pat ++ post.

(** No occurrence of the pattern in [u ++ s] starts in [u] and ends in [s]. *)
Let apart (u s : string) : Prop :=
  forall v a b, pat = a ++ b -> a <> EmptyString -> b <> EmptyString ->
                u = v ++ a -> String.prefix b s = false.

Lemma prefix_true_false (p s r : string) :
  s = p ++ r -> String.prefix p s = false -> False.
Proof.
  intros -> H. rewrite prefix_append_self in H. discriminate.
Qed.

Lemma without_copy (u : string) (c : ascii) (s : string) :
  without u -> apart u (String c s) ->
  String.prefix pat (String c s) = false ->
  without (u ++ String c EmptyString).
Proof.
  intros Hu Ha Hp pre post H.
  destruct post as [|y post].
  - rewrite append_nil_r in H.
    destruct (snoc_split _ _ _ _ H pat_nonempty) as [a' [Hpat Hu']].
    destruct a' as [|x a'].
    + apply (prefix_true_false pat (String c s) s); [now rewrite Hpat | exact Hp].
    + apply (prefix_true_false (String c EmptyString) (String c s) s);
        [reflexivity|].
      apply (Ha pre (String x a') (String c EmptyString));
        [exact Hpat | discriminate | discriminate | exact Hu'].
  - rewrite <- append_assoc in H.
    destruct (snoc_split _ _ _ _ H) as [p' [_ Hu']]; [discriminate|].
    apply (Hu pre p'). now rewrite <- append_assoc.
Qed.

Lemma apart_copy (u : string) (c : ascii) (s : string) :
  apart u (String c s) ->
  String.prefix pat (String c s) = false ->
  apart (u ++ String c EmptyString) s.
Proof.
  intros Ha Hp v a b Hpat Hna Hnb H.
  destruct (snoc_split _ _ _ _ H Hna) as [a' [-> Hu]].
  destruct (String.prefix b s) eqn:E; [exfalso | reflexivity].
  apply prefix_iff in E. destruct E as [r ->].
  rewrite append_assoc in Hpat.
  destruct a' as [|x a'].
  - apply (prefix_true_false pat (String c (b ++ r)) r); [now rewrite Hpat | exact Hp].
  - apply (prefix_true_false (String c b) (String c (b ++ r)) r); [reflexivity|].
    apply (Ha v (String x a') (String c b));
      [exact Hpat | discriminate | discriminate | exact Hu].
Qed.

Lemma without_rep (u : string) : without u -> without (u ++ rep).
Proof.
  intros Hu pre post H.
  destruct (append_eq_append _ _ _ _ H) as [m [[H1 H2] | [H1 H2]]].
  - destruct (append_eq_append _ _ _ _ H2) as [k [[H3 H4] | [H3 H4]]].
    + destruct m as [|x m].
      * simpl in H3. apply (rep_without EmptyString post). simpl. congruence.
      * destruct k as [|y k].
        -- rewrite append_nil_r in H3. apply (Hu pre EmptyString).
           rewrite append_nil_r. congruence.
        -- apply (prefix_true_false (String y k) rep post); [exact H4|].
           apply (no_overlap (String x m) (String y k));
             [exact H3 | discriminate | discriminate].
    + apply (Hu pre k). rewrite H1, H3. reflexivity.
  - apply (rep_without m post). exact H2.
Qed.

Lemma apart_rep (u s : string) : apart (u ++ rep) s.
Proof.
  intros v a b Hpat Hna Hnb H.
  destruct rep_end as [r0 [z [Hr Hz]]].
  rewrite Hr, <- append_assoc in H.
  destruct (snoc_split _ _ _ _ H Hna) as [a' [-> _]].
  exfalso. apply (Hz a' b). now rewrite Hpat, append_assoc.
Qed.

Lemma replaceAll_from_without (n : nat) :
  forall s u, String.length s <= n -> without u -> apart u s ->
              without (u ++ replaceAll_from pat rep 0 s).
Proof.
  induction n as [|n IH]; intros s u Hl Hu Ha.
  - destruct s; [|simpl in Hl; lia]. simpl. now rewrite append_nil_r.
  - destruct (String.prefix pat s) eqn:E.
    + apply prefix_iff in E. destruct E as [rest ->].
      rewrite replaceAll_from_match by exact pat_nonempty.
      rewrite <- append_assoc. apply IH.
      * rewrite length_append in Hl.
        destruct pat; [congruence | simpl in Hl; lia].
      * now apply without_rep.
      * apply apart_rep.
    + destruct s as [|c s]; [simpl; now rewrite append_nil_r|].
      rewrite replaceAll_from_copy by exact E.
      rewrite append_snoc. apply IH.
      * simpl in Hl. lia.
      * now apply without_copy with (s := s).
      * now apply apart_copy.
Qed.

Lemma replaceAll_removes_all (s : string) :
  includes pat (replaceAll pat rep s) = false.
Proof.
  rewrite replaceAll_nonempty by exact pat_nonempty.
  destruct (includes pat _) eqn:E; [exfalso | reflexivity].
  apply includes_iff in E. destruct E as [pre [post E]].
  apply (replaceAll_from_without (String.length s) s EmptyString (le_n _))
    with (pre := pre) (post := post).
  - intros pre' post' H. symmetry in H. apply append_eq_nil in H.
    destruct H as [_ H]. apply append_eq_nil in H. destruct H as [H _].
    contradiction.
  - intros v a b _ Hna _ H. symmetry in H. apply append_eq_nil in H.
    destruct H as [_ H]. contradiction.
  - exact E.
Qed.

End Avoid.

Lemma cleanReplacement_sound (pat rep s : string) :
  cleanReplacement pat rep = true ->
  includes pat (replaceAll pat rep s) = false.
Proof.
  unfold cleanReplacement. intros H.
  apply andb_true_iff in H. destruct H as [H H4].
  apply andb_true_iff in H. destruct H as [H H3].
  apply andb_true_iff in H. destruct H as [H1 H2].
  apply negb_true_iff in H2.
  apply replaceAll_removes_all.
  - destruct pat; [discriminate | discriminate].
  - intros pre post. now apply includes_false.
  - intros a b ->. now apply suffixesAvoid_sound.
  - destruct (lastChar rep) as [z|] eqn:E; [|discriminate].
    destruct (lastChar_snoc rep z E) as [r0 Hr].
    exists r0, z. split; [exact Hr|]. intros a b ->.
    rewrite occurs_false in H4. discriminate.
Qed.

(** ** What [fixTeamNames] writes *)

Lemma team_clean : cleanReplacement OLD_TEAM NEW_TEAM = true.
Proof. reflexivity. Qed.

Lemma owners_clean :
  cleanReplacement "@cdktf/tf-cdk-team" "@cdktn-io/team-cdk-terrain" = true.
Proof. reflexivity. Qed.

Lemma email_holds_team : includes OLD_TEAM OLD_EMAIL = true.
Proof. reflexivity. Qed.

Lemma email_needs_team (s : string) :
  includes OLD_TEAM s = false -> includes OLD_EMAIL s = false.
Proof.
  intros H. destruct (includes OLD_EMAIL s) eqn:E; [|reflexivity].
  rewrite (includes_trans _ _ _ email_holds_team E) in H. discriminate.
Qed.

Lemma workflowContent_eq (content : string) :
  workflowContent content = replaceAll OLD_TEAM NEW_TEAM content.
Proof.
  unfold workflowContent. apply replaceAll_absent, email_needs_team.
  apply cleanReplacement_sound, team_clean.
Qed.

(** X7. The content [fixTeamNames] computes for a workflow file holds neither
    the legacy team name nor the legacy email any more; it differs from the
    old content when that held the team name, and is the old content when it
    did not. *)
Theorem workflow_rewrite_removes_legacy_tokens (content : string) :
  includes OLD_TEAM (workflowContent content) = false
  /\ includes OLD_EMAIL (workflowContent content) = false
  /\ (includes OLD_TEAM content = true -> workflowContent content <> content)
  /\ (includes OLD_TEAM content = false -> workflowContent content = content).
Proof.
  assert (H : includes OLD_TEAM (workflowContent content) = false).
  { rewrite workflowContent_eq. apply cleanReplacement_sound, team_clean. }
  split; [exact H | split; [now apply email_needs_team | split]].
  - intros Hc E. rewrite E in H. congruence.
  - intros Hc. rewrite workflowContent_eq. now apply replaceAll_absent.
Qed.

(** X8. In [fixTeamNames] the team name is replaced before the email, and the
    legacy email holds the legacy team name.  So the replacement of the email
    never finds one: for every content the result of the two replacements is
    the result of the first, and the test [includes(OLD_TEAM) ||
    includes(OLD_EMAIL)] is the test for the team name alone.  A legacy email
    comes out with the new team name in it, not as the new email. *)
Theorem email_replacement_never_applies (content : string) :
  replaceAll OLD_EMAIL NEW_EMAIL (replaceAll OLD_TEAM NEW_TEAM content)
  = replaceAll OLD_TEAM NEW_TEAM content
  /\ (includes OLD_TEAM content || includes OLD_EMAIL content)%bool
     = includes OLD_TEAM content
  /\ workflowContent OLD_EMAIL = "github-" ++ NEW_TEAM ++ "@hashicorp.com".
Proof.
  split; [exact (workflowContent_eq content) | split].
  - destruct (includes OLD_TEAM content) eqn:E; [reflexivity|].
    now rewrite (email_needs_team content E).
  - reflexivity.
Qed.

(** X9. The content [fixTeamNames] computes for CODEOWNERS no longer holds
    the legacy handle, and is the old content, written back unchanged, when
    the file did not hold the handle. *)
Theorem codeowners_rewrite (content : string) :
  includes "@cdktf/tf-cdk-team" (codeOwnersContent content) = false
  /\ (includes "@cdktf/tf-cdk-team" content = false ->
      codeOwnersContent content = content)
  /\ (includes "@cdktf/tf-cdk-team" content = true ->
      codeOwnersContent content <> content).
Proof.
  assert (H : includes "@cdktf/tf-cdk-team" (codeOwnersContent content) = false)
    by apply cleanReplacement_sound, owners_clean.
  split; [exact H | split].
  - intros Hc. now apply replaceAll_absent.
  - intros Hc E. rewrite E in H. congruence.
Qed.

(** X10. The workflow loop of [fixTeamNames] never throws.  It writes a file
    only after reading a legacy team name or email in it, what it writes is
    the content with the tokens replaced, and the counter it returns has grown
    by the number of files written: a file without token, a file that cannot
    be read and a file that cannot be written are skipped and not counted. *)
Theorem fixWorkflowFiles_writes_what_it_counts (w : World) (files : list string) :
  forall (filesChanged : nat) (s : St),
  exists t s',
    fixWorkflowFiles w files filesChanged s = (Val (filesChanged + List.length t), s')
    /\ trace s' = (trace s ++ t)%list
    /\ cwd s' = cwd s
    /\ Forall (workflowWrite w files) t.
Proof.
  induction files as [|file rest IH]; intros n s.
  - exists [], s. cbn. unfold ret. rewrite Nat.add_0_r, app_nil_r. auto.
  - assert (Hrest : forall t, Forall (workflowWrite w rest) t ->
                              Forall (workflowWrite w (file :: rest)) t).
    { apply Forall_impl. intros e [path [content [s0 [He [Hin H]]]]].
      exists path, content, s0. split; [exact He | split; [now right | exact H]]. }
    cbn [fixWorkflowFiles]. unfold bind at 1. unfold tryCatch at 1.
    unfold bind at 1. unfold readFileSync at 1.
    destruct (read_file w s file) as [content|] eqn:Er.
    + destruct (includes OLD_TEAM content || includes OLD_EMAIL content)%bool eqn:Et.
      * unfold bind at 1. unfold writeFileSync at 1.
        destruct (write_ok w s file).
        -- cbn [ret].
           destruct (IH (S n) (log (WriteFile file (workflowContent content)) s))
             as [t [s' [E [Ht [Hc Hf]]]]].
           exists (WriteFile file (workflowContent content) :: t), s'.
           unfold workflowContent in *. rewrite E.
           split; [f_equal; f_equal; simpl; lia|].
           split; [rewrite Ht; simpl; now rewrite <- app_assoc|].
           split; [exact Hc|].
           constructor; [|now apply Hrest].
           exists file, content, s. repeat split; auto. now left.
        -- cbn [ret]. destruct (IH n s) as [t [s' [E [Ht [Hc Hf]]]]].
           exists t, s'. rewrite E. auto.
      * cbn [ret]. destruct (IH n s) as [t [s' [E [Ht [Hc Hf]]]]].
        exists t, s'. rewrite E. auto.
    + cbn [ret]. destruct (IH n s) as [t [s' [E [Ht [Hc Hf]]]]].
      exists t, s'. rewrite E. auto.
Qed.

(** ** The temporary directory *)

Lemma emits_anything {A : Type} (m : M A) (s : St) :
  emits (fun _ => True) m -> exists t, trace (snd (m s)) = (trace s ++ t)%list.
Proof. intros H. destruct (H s) as [t [E _]]. eauto. Qed.

(** [try { m } finally { process.chdir(dir); execSync(`rm -rf ${tempDir}`) }]
    for an [m] that does not end the process: the directory is entered again
    and the removal is the last thing done, whatever [m] did. *)
Lemma tryFinally_cleanup {A : Type} (w : World) (m : M A) (dir tempDir : string)
    (s : St) :
  noExit m -> startsWith "/" dir = true ->
  exists o s',
    tryFinally m (chdir dir ;; execSync w (RmRf tempDir) ;; ret tt) s = (o, s')
    /\ (forall c, o <> Exit c)
    /\ cwd s' = dir
    /\ trace s' = (trace (snd (m s)) ++ [Exec (RmRf tempDir)])%list.
Proof.
  intros Hm Hd. unfold tryFinally. specialize (Hm s).
  destruct (m s) as [[a|e|c] s1]; cbn [fst snd] in *.
  - unfold bind at 1. unfold chdir at 1. rewrite Hd.
    unfold bind, execSync, ret. cbn [trace cwd].
    destruct (exec_ok w _ (RmRf tempDir)); eexists _, _;
      (split; [reflexivity | split; [discriminate | split; reflexivity]]).
  - unfold bind at 1. unfold chdir at 1. rewrite Hd.
    unfold bind, execSync, ret. cbn [trace cwd].
    destruct (exec_ok w _ (RmRf tempDir)); eexists _, _;
      (split; [reflexivity | split; [discriminate | split; reflexivity]]).
  - now elim (Hm c).
Qed.

Lemma migrateRepositoryHistory_no_tempdir
    (w : World) (sourceRepoName targetRepoName : string) (s : St) :
  exec_ok w s Mktemp = false ->
  migrateRepositoryHistory w sourceRepoName targetRepoName s
  = (Throw "Command failed", log (Exec Mktemp) s).
Proof.
  intros Ek. unfold migrateRepositoryHistory.
  unfold bind at 1. unfold execSync at 1. now rewrite Ek.
Qed.

Lemma migrateRepositoryHistory_tempdir
    (w : World) (sourceRepoName targetRepoName : string) (s : St) :
  startsWith "/" (cwd s) = true ->
  exec_ok w s Mktemp = true ->
  exists o s' t,
    migrateRepositoryHistory w sourceRepoName targetRepoName s = (o, s')
    /\ cwd s' = cwd s
    /\ trace s' = (trace s ++ Exec Mktemp :: t
                     ++ [Exec (RmRf (trim (exec_out w s Mktemp)))])%list.
Proof.
  intros Habs Ek. unfold migrateRepositoryHistory.
  unfold bind at 1. unfold execSync at 1. rewrite Ek.
  unfold bind at 1. unfold getCwd at 1. cbn [cwd log].
  match goal with
  | |- context [tryFinally ?m _ ?s0] =>
      assert (Hn : noExit m) by effects;
      assert (He : emits (fun _ => True) m) by (effects; exact I);
      destruct (tryFinally_cleanup w m (cwd s) (trim (exec_out w s Mktemp)) s0 Hn Habs)
        as [o [s' [E [_ [Hc Ht]]]]];
      destruct (emits_anything m s0 He) as [t Hm]
  end.
  exists o, s', t. split; [exact E | split; [exact Hc|]].
  rewrite Ht, Hm. cbn [trace log]. now rewrite <- !app_assoc.
Qed.

(** X11. [migrateRepositoryHistory] leaves the process where it was and
    removes its temporary directory on every path: when [mktemp] succeeds,
    the last command is [rm -rf] of the directory that [mktemp] printed,
    whether the clone and the push succeeded or not, and the working
    directory is the one from before the call.  When [mktemp] itself fails the
    function throws at once. *)
Theorem migrateRepositoryHistory_cleans_up
    (w : World) (sourceRepoName targetRepoName : string) (s : St) :
  startsWith "/" (cwd s) = true ->
  cwd (snd (migrateRepositoryHistory w sourceRepoName targetRepoName s)) = cwd s
  /\ (exec_ok w s Mktemp = false ->
      migrateRepositoryHistory w sourceRepoName targetRepoName s
      = (Throw "Command failed", log (Exec Mktemp) s))
  /\ (exec_ok w s Mktemp = true ->
      exists t,
        trace (snd (migrateRepositoryHistory w sourceRepoName targetRepoName s))
        = (trace s ++ Exec Mktemp :: t
             ++ [Exec (RmRf (trim (exec_out w s Mktemp)))])%list).
Proof.
  intros Habs. destruct (exec_ok w s Mktemp) eqn:Ek.
  - destruct (migrateRepositoryHistory_tempdir w sourceRepoName targetRepoName
                s Habs Ek) as [o [s' [t [E [Hc Ht]]]]].
    rewrite E. cbn [snd]. split; [exact Hc | split; [discriminate|]].
    intros _. now exists t.
  - rewrite (migrateRepositoryHistory_no_tempdir w _ _ s Ek).
    split; [reflexivity | split; [reflexivity | discriminate]].
Qed.

Lemma migrateRepositoryHistory_cleans_up_witness :
  let w := hosting allSources [] cloningTlsFails [] EmptyString in
  let r := migrateRepositoryHistory w "cdktf-provider-tls" "cdktn-provider-tls" initial in
  cwd (snd r) = "/work"
  /\ exists t, trace (snd r) = (Exec Mktemp :: t ++ [Exec (RmRf "/tmp/tmp.k3Qw9")])%list.
Proof.
  intros w r.
  destruct (migrateRepositoryHistory_cleans_up w "cdktf-provider-tls"
              "cdktn-provider-tls" initial eq_refl) as [H1 [_ H3]].
  split; [exact H1|]. exact (H3 eq_refl).
Defined.

Lemma fixTeamNames_no_tempdir (w : World) (repoName : string) (s : St) :
  exec_ok w s Mktemp = false ->
  fixTeamNames w repoName s = (Val tt, log (Exec Mktemp) s).
Proof.
  intros Ek. unfold fixTeamNames. unfold tryCatch at 1.
  unfold bind at 1. unfold execSync at 1. now rewrite Ek.
Qed.

Lemma fixTeamNames_tempdir (w : World) (repoName : string) (s : St) :
  startsWith "/" (cwd s) = true ->
  exec_ok w s Mktemp = true ->
  exists s' t,
    fixTeamNames w repoName s = (Val tt, s')
    /\ cwd s' = cwd s
    /\ trace s' = (trace s ++ Exec Mktemp :: t
                     ++ [Exec (RmRf (trim (exec_out w s Mktemp)))])%list.
Proof.
  intros Habs Ek. unfold fixTeamNames. unfold tryCatch at 1.
  unfold bind at 1. unfold execSync at 1. rewrite Ek.
  unfold bind at 1. unfold getCwd at 1. cbn [cwd log].
  match goal with
  | |- context [tryFinally ?m _ ?s0] =>
      assert (Hn : noExit m)
        by (effects; apply (fixWorkflowFiles_emits w repoName));
      assert (He : emits (fun _ => True) m)
        by (effects; try exact I;
            apply emits_impl with (P := fixEvent repoName);
            [auto | apply fixWorkflowFiles_emits]);
      destruct (tryFinally_cleanup w m (cwd s) (trim (exec_out w s Mktemp)) s0 Hn Habs)
        as [o [s' [E [Ho [Hc Ht]]]]];
      destruct (emits_anything m s0 He) as [t Hm]
  end.
  exists s', t. rewrite E.
  split; [|split; [exact Hc|]].
  - destruct o as [[]|e|c]; try reflexivity. now elim (Ho c).
  - rewrite Ht, Hm. cbn [trace log]. now rewrite <- !app_assoc.
Qed.

(** X12. [fixTeamNames] always returns normally and leaves the process where
    it was.  When [mktemp] succeeds, the last command is [rm -rf] of the
    temporary directory, on every path through the function: the early returns
    and every failure of a command in between included. *)
Theorem fixTeamNames_cleans_up (w : World) (repoName : string) (s : St) :
  startsWith "/" (cwd s) = true ->
  fst (fixTeamNames w repoName s) = Val tt
  /\ cwd (snd (fixTeamNames w repoName s)) = cwd s
  /\ (exec_ok w s Mktemp = false ->
      trace (snd (fixTeamNames w repoName s)) = (trace s ++ [Exec Mktemp])%list)
  /\ (exec_ok w s Mktemp = true ->
      exists t,
        trace (snd (fixTeamNames w repoName s))
        = (trace s ++ Exec Mktemp :: t
             ++ [Exec (RmRf (trim (exec_out w s Mktemp)))])%list).
Proof.
  intros Habs. destruct (exec_ok w s Mktemp) eqn:Ek.
  - destruct (fixTeamNames_tempdir w repoName s Habs Ek) as [s' [t [E [Hc Ht]]]].
    rewrite E. cbn [fst snd].
    split; [reflexivity | split; [exact Hc | split; [discriminate|]]].
    intros _. now exists t.
  - rewrite (fixTeamNames_no_tempdir w repoName s Ek).
    split; [reflexivity | split; [reflexivity | split; [reflexivity | discriminate]]].
Qed.

Lemma fixTeamNames_cleans_up_witness :
  let r := fixTeamNames legacyOwners "cdktn-provider-aws" initial in
  fst r = Val tt
  /\ cwd (snd r) = "/work"
  /\ exists t, trace (snd r) = (Exec Mktemp :: t ++ [Exec (RmRf "/tmp/tmp.k3Qw9")])%list.
Proof.
  intros r.
  destruct (fixTeamNames_cleans_up legacyOwners "cdktn-provider-aws" initial eq_refl)
    as [H1 [H2 [_ H4]]].
  split; [exact H1 | split; [exact H2 | exact (H4 eq_refl)]].
Defined.

(** ** Creating the repository *)

Lemma pollUntilAccessible_spec (w : World) (targetRepoName : string) (n : nat) :
  forall s,
  exists k s',
    k <= n
    /\ pollUntilAccessible w targetRepoName n s
       = (if Nat.ltb k n then Val true
          else Throw "Repository creation timeout after 20 seconds", s')
    /\ trace s'
       = (trace s ++ failedPolls targetRepoName k
            ++ (if Nat.ltb k n
                then [Exec (GhApiRepo "cdktn-io" targetRepoName)] else []))%list
    /\ cwd s' = cwd s.
Proof.
  induction n as [|n IH]; intros s.
  - exists 0, s. cbn. unfold throw. rewrite app_nil_r. auto.
  - cbn [pollUntilAccessible]. unfold bind at 1. unfold tryCatch at 1.
    unfold bind at 1. unfold execSync at 1.
    destruct (exec_ok w s (GhApiRepo "cdktn-io" targetRepoName)).
    + exists 0, (log (Exec (GhApiRepo "cdktn-io" targetRepoName)) s).
      cbn. unfold ret. repeat split; auto. lia.
    + unfold bind at 1. unfold sleep at 1. cbn [ret].
      destruct (IH (log (Sleep 2000)
                      (log (Exec (GhApiRepo "cdktn-io" targetRepoName)) s)))
        as [k [s' [Hk [E [Ht Hc]]]]].
      exists (S k), s'. rewrite E.
      change (Nat.ltb (S k) (S n)) with (Nat.ltb k n).
      repeat split; auto; [lia|].
      rewrite Ht. cbn [trace log failedPolls]. now rewrite <- !app_assoc.
Qed.

Lemma createEmptyRepository_not_created (w : World) (targetRepoName : string) (s : St) :
  exec_ok w s (GhRepoCreate targetRepoName) = false ->
  createEmptyRepository w targetRepoName s
  = (Throw "Command failed", log (Exec (GhRepoCreate targetRepoName)) s).
Proof.
  intros Ek. unfold createEmptyRepository. unfold tryCatch at 1.
  unfold bind at 1. unfold execSync at 1. now rewrite Ek.
Qed.

Lemma createEmptyRepository_created (w : World) (targetRepoName : string) (s : St) :
  exec_ok w s (GhRepoCreate targetRepoName) = true ->
  exists k s',
    k <= 10
    /\ createEmptyRepository w targetRepoName s
       = (if Nat.ltb k 10 then Val true
          else Throw "Repository creation timeout after 20 seconds", s')
    /\ trace s'
       = (trace s ++ Exec (GhRepoCreate targetRepoName)
            :: failedPolls targetRepoName k
            ++ (if Nat.ltb k 10
                then [Exec (GhApiRepo "cdktn-io" targetRepoName)]
                else []))%list
    /\ cwd s' = cwd s.
Proof.
  intros Ek. unfold createEmptyRepository. unfold tryCatch at 1.
  unfold bind at 1. unfold execSync at 1. rewrite Ek.
  destruct (pollUntilAccessible_spec w targetRepoName maxAttempts
              (log (Exec (GhRepoCreate targetRepoName)) s))
    as [k [s' [Hk [E [Ht Hc]]]]].
  exists k, s'. rewrite E. change maxAttempts with 10 in *.
  split; [exact Hk | split; [|split; [|exact Hc]]].
  - destruct (Nat.ltb k 10); reflexivity.
  - rewrite Ht. cbn [trace log]. now rewrite <- !app_assoc.
Qed.


(** ** The order of the steps *)

Lemma failedPolls_notPush (targetRepoName : string) (k : nat) :
  Forall notPush (failedPolls targetRepoName k).
Proof.
  induction k as [|k IH]; simpl; [constructor|].
  constructor; [discriminate|]. constructor; [discriminate | exact IH].
Qed.

Lemma before_first {A : Type} (x : A) (a b a' b' : list A) :
  (a ++ x :: b = a' ++ x :: b')%list -> ~ In x a' ->
  forall y, In y a' -> In y a.
Proof.
  intros H Hx y Hy.
  destruct (app_eq_app _ _ _ _ H) as [l [[H1 H2] | [H1 H2]]].
  - subst a. apply in_or_app. now left.
  - destruct l as [|z l].
    + subst a'. now rewrite app_nil_r in Hy.
    + simpl in H2. injection H2 as <- _. exfalso. apply Hx.
      subst a'. apply in_or_app. right. now left.
Qed.

Lemma notPush_not_In (a : list Event) :
  Forall notPush a -> ~ In (Exec GitPushMirror) a.
Proof.
  intros H Hin. rewrite Forall_forall in H. now apply (H _ Hin).
Qed.

Lemma migrateRepositoryHistory_push_position
    (w : World) (sourceRepoName targetRepoName : string) (s : St) :
  exists t,
    trace (snd (migrateRepositoryHistory w sourceRepoName targetRepoName s))
    = (trace s ++ t)%list
    /\ (Forall notPush t
        \/ exists b,
             t = ([Exec Mktemp; Exec (GitCloneBare sourceRepoName);
                   Exec (GitRemoteAdd targetRepoName)]
                  ++ Exec GitPushMirror :: b)%list
             /\ Forall notPush b).
Proof.
  unfold migrateRepositoryHistory, bind, tryFinally, tryCatch, execSync,
    getCwd, chdir, ret, throw, log.
  repeat match goal with
         | |- context [if exec_ok w ?s0 ?c then _ else _] =>
             destruct (exec_ok w s0 c); cbn [trace cwd fst snd]
         end;
    eexists; (split; [rewrite <- ?app_assoc; cbn [app]; reflexivity|]);
    first [ left; repeat constructor; discriminate
          | right; eexists; split; [reflexivity | repeat constructor; discriminate] ].
Qed.

(** Equal lists up to the bracketing of [++]. *)
Ltac list_eq :=
  repeat (rewrite <- app_assoc || rewrite <- app_comm_cons);
  cbn [app]; reflexivity.

Lemma createIndependentRepository_push_position
    (w : World) (sourceRepoName targetRepoName : string) (s : St) :
  exists t,
    trace (snd (createIndependentRepository w sourceRepoName targetRepoName s))
    = (trace s ++ t)%list
    /\ (Forall notPush t
        \/ exists a b,
             t = (a ++ Exec GitPushMirror :: b)%list
             /\ Forall notPush a
             /\ In (Exec (GhRepoCreate targetRepoName)) a
             /\ In (Exec (GhApiRepo "cdktn-io" targetRepoName)) a
             /\ In (Exec (GhActionsPermissions targetRepoName false)) a
             /\ In (Exec (GitCloneBare sourceRepoName)) a).
Proof.
  rewrite createIndependentRepository_eq.
  destruct (exec_ok w s (GhRepoCreate targetRepoName)) eqn:Ek.
  2:{ unfold bind at 1. rewrite (createEmptyRepository_not_created w _ s Ek).
      exists [Exec (GhRepoCreate targetRepoName); Exec (GhRepoDelete targetRepoName)].
      split; [cbn [snd trace log]; list_eq|].
      left. repeat constructor; discriminate. }
  destruct (createEmptyRepository_created w targetRepoName s Ek)
    as [k [s1 [_ [E [Ht _]]]]].
  unfold bind at 1. rewrite E.
  pose proof (failedPolls_notPush targetRepoName k) as Hpolls.
  destruct (Nat.ltb k 10).
  2:{ eexists. split.
      - cbn [snd trace log]. rewrite Ht. list_eq.
      - left. constructor; [discriminate|].
        repeat (apply Forall_app; split); auto;
          repeat constructor; discriminate. }
  unfold bind at 1. rewrite disableGitHubActions_eq.
  unfold bind at 1.
  set (s2 := log (Exec (GhActionsPermissions targetRepoName false)) s1).
  destruct (migrateRepositoryHistory_push_position w sourceRepoName targetRepoName s2)
    as [tm [Htm Hcase]].
  set (pre := (Exec (GhRepoCreate targetRepoName)
               :: failedPolls targetRepoName k
               ++ [Exec (GhApiRepo "cdktn-io" targetRepoName)]
               ++ [Exec (GhActionsPermissions targetRepoName false)])%list).
  assert (Hs2 : trace s2 = (trace s ++ pre)%list).
  { unfold s2, pre. cbn [trace log]. rewrite Ht. list_eq. }
  assert (Hpre : Forall notPush pre).
  { unfold pre. constructor; [discriminate|].
    apply Forall_app. split; [exact Hpolls|]. repeat constructor; discriminate. }
  assert (Hin : In (Exec (GhRepoCreate targetRepoName)) pre
                /\ In (Exec (GhApiRepo "cdktn-io" targetRepoName)) pre
                /\ In (Exec (GhActionsPermissions targetRepoName false)) pre).
  { unfold pre. split; [now left|]. split; right; apply in_or_app; right.
    - now left.
    - right. now left. }
  assert (Hgen : forall tail, Forall notPush tail ->
    exists t, (trace s ++ pre ++ tm ++ tail = trace s ++ t)%list
      /\ (Forall notPush t
          \/ exists a b,
               t = (a ++ Exec GitPushMirror :: b)%list
               /\ Forall notPush a
               /\ In (Exec (GhRepoCreate targetRepoName)) a
               /\ In (Exec (GhApiRepo "cdktn-io" targetRepoName)) a
               /\ In (Exec (GhActionsPermissions targetRepoName false)) a
               /\ In (Exec (GitCloneBare sourceRepoName)) a)).
  { intros tail Htail. exists (pre ++ tm ++ tail)%list. split; [reflexivity|].
    destruct Hcase as [Hno | [b [-> Hb]]].
    - left. repeat (apply Forall_app; split); auto.
    - right.
      exists (pre ++ [Exec Mktemp; Exec (GitCloneBare sourceRepoName);
                      Exec (GitRemoteAdd targetRepoName)])%list, (b ++ tail)%list.
      split; [list_eq|].
      split; [apply Forall_app; split; [exact Hpre | repeat constructor; discriminate]|].
      destruct Hin as [H1 [H2 H3]].
      repeat split; apply in_or_app; auto.
      right. right. now left. }
  destruct (migrateRepositoryHistory w sourceRepoName targetRepoName s2)
    as [[u|e|c] s3]; cbn [snd trace log ret] in *.
  - destruct (Hgen [] (Forall_nil _)) as [t [Et Hc]].
    exists t. split; [|exact Hc].
    rewrite Htm, Hs2, <- Et. rewrite app_nil_r. list_eq.
  - destruct (Hgen [Exec (GhRepoDelete targetRepoName)]) as [t [Et Hc]];
      [repeat constructor; discriminate|].
    exists t. split; [|exact Hc].
    rewrite Htm, Hs2, <- Et. list_eq.
  - destruct (Hgen [] (Forall_nil _)) as [t [Et Hc]].
    exists t. split; [|exact Hc].
    rewrite Htm, Hs2, <- Et. rewrite app_nil_r. list_eq.
Qed.

(** X14. In [createIndependentRepository] the history is pushed only into a
    repository that this call created, saw accessible and tried to disable
    the actions of: whenever the mirror push is run, the creation, a query of
    the target, the request that disables its actions and the bare clone of
    the source have all been run before it. *)
Theorem history_is_pushed_after_actions_are_disabled
    (w : World) (sourceRepoName targetRepoName : string) (s : St)
    (before after : list Event) :
  trace (snd (createIndependentRepository w sourceRepoName targetRepoName s))
  = (trace s ++ before ++ Exec GitPushMirror :: after)%list ->
  In (Exec (GhRepoCreate targetRepoName)) before
  /\ In (Exec (GhApiRepo "cdktn-io" targetRepoName)) before
  /\ In (Exec (GhActionsPermissions targetRepoName false)) before
  /\ In (Exec (GitCloneBare sourceRepoName)) before.
Proof.
  intros H.
  destruct (createIndependentRepository_push_position w sourceRepoName
              targetRepoName s) as [t [Et Hc]].
  rewrite Et in H. apply app_inv_head in H.
  destruct Hc as [Hno | [a [b [-> [Ha [H1 [H2 [H3 H4]]]]]]]].
  - exfalso. apply (notPush_not_In t Hno). rewrite H.
    apply in_or_app. right. now left.
  - pose proof (before_first _ _ _ _ _ (eq_sym H) (notPush_not_In a Ha)) as Hb.
    auto.
Qed.

Lemma history_is_pushed_after_actions_are_disabled_witness :
  In (Exec (GhActionsPermissions "cdktn-provider-aws" false))
     [ Exec (GhRepoCreate "cdktn-provider-aws");
       Exec (GhApiRepo "cdktn-io" "cdktn-provider-aws");
       Exec (GhActionsPermissions "cdktn-provider-aws" false);
       Exec Mktemp;
       Exec (GitCloneBare "cdktf-provider-aws");
       Exec (GitRemoteAdd "cdktn-provider-aws") ].
Proof.
  apply (history_is_pushed_after_actions_are_disabled bare
           "cdktf-provider-aws" "cdktn-provider-aws" initial
           _ [Exec (RmRf "/tmp/tmp.k3Qw9")]).
  vm_compute. reflexivity.
Defined.

(** ** How a run ends *)

Lemma createIndependentRepository_noExit
    (w : World) (sourceRepoName targetRepoName : string) :
  noExit (createIndependentRepository w sourceRepoName targetRepoName).
Proof.
  unfold createIndependentRepository, createEmptyRepository,
    disableGitHubActions, migrateRepositoryHistory.
  effects.
Qed.

Lemma forkLoop_exit (w : World) (total : nat) (toFork : list Probed) :
  forall i s c s', forkLoop w i total toFork s = (Exit c, s') -> c = 1.
Proof.
  induction toFork as [|r rest IH]; intros i s c s' H.
  - discriminate.
  - cbn [forkLoop] in H. unfold bind at 1 in H. unfold tryCatch at 1 in H.
    match type of H with
    | context [match ?m s with _ => _ end] =>
        assert (Hn : noExit m)
          by (apply noExit_bind; [apply createIndependentRepository_noExit|];
              intros _; apply noExit_bind; [apply fixTeamNames_noExit|];
              intros _; apply noExit_bind;
              [unfold enableGitHubActions; effects|];
              intros _; destruct (Nat.ltb i (total - 1)); effects);
        specialize (Hn s); destruct (m s) as [[u|e|c0] s1]
    end; cbn [fst] in *.
    + now apply (IH _ _ _ _ H).
    + unfold exit in H. now injection H as <- _.
    + now elim (Hn c0).
Qed.

Lemma migrateAll_exit (w : World) (inp : Input) (results : list Probed)
    (s s' : St) (c : nat) :
  migrateAll w inp results s = (Exit c, s') -> c = 1.
Proof.
  unfold migrateAll. destruct (negb (dryRun (args inp))); [|discriminate].
  cbv zeta. destruct (Nat.eqb _ 0); [discriminate|].
  apply forkLoop_exit.
Qed.

Lemma script_early_code (w : World) (inp : Input) :
  filteredOf inp = None -> fst (run w inp) = 1.
Proof.
  unfold filteredOf, run, script.
  destruct (stackDir (args inp)) as [dir|]; [|reflexivity].
  destruct (_ && _)%bool; [reflexivity|].
  destruct (negb (stackDirExists inp)); [reflexivity|].
  unfold main.
  destruct (cdkTfJsonFile inp); [reflexivity | reflexivity | discriminate].
Qed.

Lemma probed_empty (w : World) (inp : Input) :
  filteredOf inp = Some [] -> probed w inp = [].
Proof. intros H. unfold probed. now rewrite H. Qed.

(** The three ways a run that got to probe can end. *)
Lemma run_probed (w : World) (inp : Input) (f : list Repo) :
  filteredOf inp = Some f -> f <> [] ->
  (fst (run w inp) = 1)
  \/ (fst (run w inp) = 0
      /\ (forall r, In r (probed w inp) -> targetExists r = false)
      /\ exists t dir now,
           stackDir (args inp) = Some dir
           /\ snd (run w inp)
              = (t ++ [WriteFile (pathJoin dir "import.tf")
                         (generateImportBlocks now (probed w inp))])%list).
Proof.
  intros Ef Hne.
  destruct (probeLoop_spec w f [] false initial) as [rs [s1 [E _]]].
  simpl in E.
  pose proof (probed_eq w inp f _ _ _ Ef E) as Hp.
  destruct (script_probed w inp f _ _ _ Ef Hne E) as [dir [Hd Es]].
  destruct (run w inp) as [code tr] eqn:R. cbn [fst snd].
  unfold run in R. rewrite Es in R. clear Es.
  destruct (existsb targetExists rs) eqn:Hc.
  { left. now injection R as <- _. }
  unfold bind at 1 2 in R.
  destruct (migrateAll w inp rs s1) as [[u|e|c] s2] eqn:Em.
  - unfold writeImport, bind, now, writeFileSync, ret in R.
    destruct (write_ok w s2 (pathJoin dir "import.tf")).
    + right. injection R as <- <-. split; [reflexivity|]. split.
      * intros r Hr. rewrite Hp in Hr.
        destruct (targetExists r) eqn:Ht; [|reflexivity].
        assert (existsb targetExists rs = true)
          by (apply existsb_exists; eauto).
        congruence.
      * exists (trace s2), dir, (clock w s2). rewrite Hp. auto.
    + left. now injection R as <- _.
  - left. now injection R as <- _.
  - left. apply migrateAll_exit in Em. subst c. now injection R as <- _.
Qed.

(** X15. A run ends with exit status 0 or 1.  It ends with 0 in two cases
    only: no repository is left after filtering and nothing was done; or no
    probed repository exists in the target organisation and the last thing
    the run did was to write [import.tf], with the import blocks of the
    repositories it probed. *)
Theorem exit_status_of_a_run (w : World) (inp : Input) :
  (fst (run w inp) = 0 \/ fst (run w inp) = 1)
  /\ (fst (run w inp) = 0 ->
      (filteredOf inp = Some [] /\ snd (run w inp) = [])
      \/ ((forall r, In r (probed w inp) -> targetExists r = false)
          /\ exists t dir now,
               stackDir (args inp) = Some dir
               /\ snd (run w inp)
                  = (t ++ [WriteFile (pathJoin dir "import.tf")
                             (generateImportBlocks now (probed w inp))])%list)).
Proof.
  destruct (filteredOf inp) as [[|r0 f]|] eqn:Ef.
  - unfold run. rewrite (script_empty w inp Ef). cbn. split; auto.
  - destruct (run_probed w inp (r0 :: f) Ef) as [H | [H0 H]]; [discriminate | |].
    + rewrite H. split; [auto | discriminate].
    + rewrite H0. split; [auto|]. intros _. right. exact H.
  - rewrite (script_early_code w inp Ef). split; [auto | discriminate].
Qed.

Lemma exit_status_of_a_run_witness :
  let inp := input false (Parsed (snapshot [aws; tls])) in
  exists t dir now,
    stackDir (args inp) = Some dir
    /\ snd (run bare inp)
       = (t ++ [WriteFile (pathJoin dir "import.tf")
                  (generateImportBlocks now (probed bare inp))])%list.
Proof.
  intros inp.
  destruct (exit_status_of_a_run bare inp) as [_ H].
  destruct (H eq_refl) as [[H1 _] | [_ H2]]; [discriminate | exact H2].
Defined.

(** ** The size of the artifact *)

Lemma importBlocks_length (repos : list Probed) :
  List.length (flat_map importBlock repos) = 5 * List.length (filter isFork repos).
Proof.
  induction repos as [|r repos IH]; [reflexivity|].
  cbn [flat_map filter]. rewrite length_app, IH.
  unfold importBlock, isFork. destruct (String.eqb (action r) "fork"); simpl; lia.
Qed.

Lemma freshNote_length (repos : list Probed) :
  List.length (freshNote repos)
  = match List.length (filter isCreateFresh repos) with
    | 0 => 0
    | S k => S k + 2
    end.
Proof.
  unfold freshNote. fold isCreateFresh.
  destruct (filter isCreateFresh repos) as [|r l]; [reflexivity|].
  cbn [List.length Nat.ltb Nat.leb].
  rewrite length_app, length_map. simpl. lia.
Qed.

(** X16. The artifact has one block of five lines for each repository whose
    action is [fork], after a header of seven lines; the repositories whose
    action is [create-fresh] add one comment line each, between a title line
    and an empty line, and nothing when there is none.  Every probed
    repository is of one of the two kinds. *)
Theorem artifact_line_count (now : string) (repos : list Probed) :
  List.length (importLines now repos)
  = 7 + 5 * List.length (filter isFork repos)
    + match List.length (filter isCreateFresh repos) with
      | 0 => 0
      | S k => S k + 2
      end
  /\ (Forall wellClassified repos ->
      List.length (filter isFork repos) + List.length (filter isCreateFresh repos)
      = List.length repos).
Proof.
  split.
  - unfold importLines. rewrite !length_app, importBlocks_length, freshNote_length.
    simpl. lia.
  - induction 1 as [|r l Hr _ IH]; [reflexivity|].
    cbn [filter]. unfold isFork at 1, isCreateFresh at 1. red in Hr. rewrite Hr.
    destruct (sourceExists r); simpl; lia.
Qed.

Lemma artifact_line_count_witness :
  List.length (filter isFork [record aws true; record tls true; record docker false])
  + List.length (filter isCreateFresh [record aws true; record tls true; record docker false])
  = 3.
Proof.
  apply (proj2 (artifact_line_count stamp
                  [record aws true; record tls true; record docker false])).
  repeat constructor.
Defined.

(** ** Where the probed repositories come from *)

Lemma filterRepositories_In (repos : list Repo) (only : option (list string))
    (exclude : list string) (r : Repo) :
  In r (filterRepositories repos only exclude) ->
  In r repos
  /\ match only with
     | Some names => names = [] \/ In (name r) names
     | None => True
     end
  /\ ~ In (name r) exclude.
Proof.
  unfold filterRepositories. intros H.
  assert (Hx : In r (match only with
                     | Some o => if Nat.ltb 0 (List.length o)
                                 then filter (fun repo => arrIncludes o (name repo)) repos
                                 else repos
                     | None => repos
                     end) /\ ~ In (name r) exclude).
  { destruct exclude as [|x exclude]; [split; [exact H | intros []]|].
    cbn [List.length Nat.ltb Nat.leb] in H. apply filter_In in H.
    destruct H as [H Hn]. split; [exact H|]. intros Hin.
    apply arrIncludes_In in Hin. rewrite Hin in Hn. discriminate. }
  destruct Hx as [Hx Hex]. split; [|split; [|exact Hex]].
  - destruct only as [[|o os]|]; [exact Hx | | exact Hx].
    cbn [List.length Nat.ltb Nat.leb] in Hx. now apply filter_In in Hx.
  - destruct only as [[|o os]|]; [now left | | exact I].
    cbn [List.length Nat.ltb Nat.leb] in Hx. apply filter_In in Hx.
    right. now apply arrIncludes_In.
Qed.

Lemma probed_repo (w : World) (inp : Input) (r : Probed) :
  In r (probed w inp) ->
  exists f, filteredOf inp = Some f /\ In (repo r) f.
Proof.
  unfold probed. destruct (filteredOf inp) as [f|]; [|contradiction].
  destruct (probeLoop_spec w f [] false initial) as [rs [s' [E [Hm _]]]].
  rewrite E. cbn. intros Hin. exists f. split; [reflexivity|].
  rewrite <- Hm. now apply in_map.
Qed.

(** X17. Every repository that a run probes is an entry of the collection
    [resource.github_repository] of the snapshot: its resource name is the
    key, its name the [name] of the entry, and its source name is derived
    from that name by [getSourceRepoName].  Its name is one of the [--only]
    names when there are any, and is none of the [--exclude] names. *)
Theorem probed_repositories_come_from_the_snapshot
    (w : World) (inp : Input) (r : Probed) :
  In r (probed w inp) ->
  exists cdkTfJson config,
    cdkTfJsonFile inp = Parsed cdkTfJson
    /\ In (resourceName r, config) (githubRepos cdkTfJson)
    /\ name r = cfg_name config
    /\ sourceName r = getSourceRepoName (name r)
    /\ match onlyRepos (args inp) with
       | Some names => names = [] \/ In (name r) names
       | None => True
       end
    /\ ~ In (name r) (excludeRepos (args inp)).
Proof.
  intros Hin. destruct (probed_repo w inp r Hin) as [f [Ef Hf]].
  unfold filteredOf in Ef.
  destruct (stackDir (args inp)); [|discriminate].
  destruct (_ && _)%bool; [discriminate|].
  destruct (negb (stackDirExists inp)); [discriminate|].
  destruct (cdkTfJsonFile inp) as [| |j]; try discriminate.
  injection Ef as <-.
  apply filterRepositories_In in Hf. destruct Hf as [Hp [Ho He]].
  unfold parseCdkTfJson in Hp. apply in_map_iff in Hp.
  destruct Hp as [[key config] [Hr Hk]].
  exists j, config. cbn [fst snd] in Hr.
  rewrite <- Hr. cbn [resourceName name sourceName].
  rewrite <- Hr in Ho, He. cbn [name] in Ho, He.
  repeat split; auto.
Qed.

Lemma probed_repositories_come_from_the_snapshot_witness :
  let inp := invoke ["cdktf.out/stacks/repos"; "--only=cdktn-provider-tls"]
               true (Parsed (snapshot [aws; tls])) in
  exists cdkTfJson config,
    cdkTfJsonFile inp = Parsed cdkTfJson
    /\ In ("cdktn-provider-tls_repo_11A4EE37", config) (githubRepos cdkTfJson)
    /\ "cdktn-provider-tls" = cfg_name config
    /\ "cdktf-provider-tls" = getSourceRepoName "cdktn-provider-tls"
    /\ match onlyRepos (args inp) with
       | Some names => names = [] \/ In "cdktn-provider-tls" names
       | None => True
       end
    /\ ~ In "cdktn-provider-tls" (excludeRepos (args inp)).
Proof.
  intros inp.
  apply (probed_repositories_come_from_the_snapshot bare inp (record tls true)).
  vm_compute. auto.
Defined.

(** ** Source names *)

(** X19. A source name never starts with [cdktn-], and deriving the source
    name of a source name changes nothing: [getSourceRepoName] is idempotent.
    It keeps the length of the name. *)
Theorem getSourceRepoName_idempotent (targetRepoName : string) :
  startsWith "cdktn-" (getSourceRepoName targetRepoName) = false
  /\ getSourceRepoName (getSourceRepoName targetRepoName)
     = getSourceRepoName targetRepoName
  /\ String.length (getSourceRepoName targetRepoName)
     = String.length targetRepoName.
Proof.
  assert (H : startsWith "cdktn-" (getSourceRepoName targetRepoName) = false).
  { unfold getSourceRepoName, replacePrefix, startsWith.
    destruct (stripPrefix "cdktn-" targetRepoName) as [rest|] eqn:E.
    - reflexivity.
    - destruct (String.prefix "cdktn-" targetRepoName) eqn:P; [|reflexivity].
      apply prefix_stripPrefix in P. destruct P as [r P]. congruence. }
  split; [exact H | split].
  - unfold getSourceRepoName at 1. unfold replacePrefix.
    now rewrite (prefix_false_stripPrefix _ _ H).
  - unfold getSourceRepoName, replacePrefix.
    destruct (stripPrefix "cdktn-" targetRepoName) as [rest|] eqn:E; [|reflexivity].
    apply stripPrefix_Some in E. subst targetRepoName. reflexivity.
Qed.

(** ** What a successful run creates *)

Lemma creations_app (a b : list Event) :
  creations (a ++ b) = (creations a ++ creations b)%list.
Proof. apply flat_map_app. Qed.

Lemma deletions_app (a b : list Event) :
  deletions (a ++ b) = (deletions a ++ deletions b)%list.
Proof. apply flat_map_app. Qed.

Lemma quiet_trace (t : list Event) :
  Forall quiet t -> creations t = [] /\ deletions t = [].
Proof.
  induction 1 as [|e t [Hc Hd] _ [IHc IHd]]; [auto|].
  change (e :: t) with ([e] ++ t)%list.
  rewrite creations_app, deletions_app, Hc, Hd, IHc, IHd. auto.
Qed.

Lemma failedPolls_quiet (targetRepoName : string) (k : nat) :
  Forall quiet (failedPolls targetRepoName k).
Proof.
  induction k as [|k IH]; simpl; [constructor|].
  repeat (constructor; [split; reflexivity|]). exact IH.
Qed.

Lemma isProbe_quiet (e : Event) : isProbe e -> quiet e.
Proof.
  destruct e as [c| |]; try contradiction.
  destruct c; try contradiction. intros _. split; reflexivity.
Qed.

Lemma fixEvent_quiet (n : string) (e : Event) : fixEvent n e -> quiet e.
Proof.
  destruct e as [c| |]; simpl; try contradiction; try (split; reflexivity).
  destruct c; try contradiction; intros _; split; reflexivity.
Qed.

Lemma migrateRepositoryHistory_quiet
    (w : World) (sourceRepoName targetRepoName : string) :
  emits quiet (migrateRepositoryHistory w sourceRepoName targetRepoName).
Proof. unfold migrateRepositoryHistory. effects; split; reflexivity. Qed.

(** A call of [createIndependentRepository] that returns has created the
    target, once, and deleted nothing. *)
Lemma createIndependentRepository_created
    (w : World) (sourceRepoName targetRepoName : string) (s s1 : St) (b : bool) :
  createIndependentRepository w sourceRepoName targetRepoName s = (Val b, s1) ->
  exists t, trace s1 = (trace s ++ t)%list
            /\ creations t = [targetRepoName] /\ deletions t = [].
Proof.
  rewrite createIndependentRepository_eq. intros H.
  destruct (exec_ok w s (GhRepoCreate targetRepoName)) eqn:Ek.
  2:{ unfold bind at 1 in H.
      rewrite (createEmptyRepository_not_created w _ s Ek) in H. discriminate. }
  destruct (createEmptyRepository_created w targetRepoName s Ek)
    as [k [s0 [_ [E [Ht _]]]]].
  unfold bind at 1 in H. rewrite E in H.
  destruct (Nat.ltb k 10); [|discriminate].
  unfold bind at 1 in H. rewrite disableGitHubActions_eq in H.
  unfold bind at 1 in H.
  destruct (migrateRepositoryHistory_quiet w sourceRepoName targetRepoName
              (log (Exec (GhActionsPermissions targetRepoName false)) s0))
    as [tm [Em Fm]].
  destruct (migrateRepositoryHistory w sourceRepoName targetRepoName _)
    as [[u|e|c] s3]; try discriminate.
  unfold ret in H. injection H as _ <-. cbn [snd] in Em.
  destruct (quiet_trace _ (failedPolls_quiet targetRepoName k)) as [Pc Pd].
  destruct (quiet_trace _ Fm) as [Mc Md].
  exists (Exec (GhRepoCreate targetRepoName)
          :: failedPolls targetRepoName k
          ++ [Exec (GhApiRepo "cdktn-io" targetRepoName)]
          ++ [Exec (GhActionsPermissions targetRepoName false)] ++ tm)%list.
  split; [rewrite Em; cbn [trace log]; rewrite Ht; list_eq|].
  change (Exec (GhRepoCreate targetRepoName) :: ?l)
    with ([Exec (GhRepoCreate targetRepoName)] ++ l)%list.
  rewrite !creations_app, !deletions_app, Pc, Pd, Mc, Md. split; reflexivity.
Qed.

Lemma forkLoop_creations (w : World) (total : nat) (toFork : list Probed) :
  forall i s s',
    forkLoop w i total toFork s = (Val tt, s') ->
    exists t, trace s' = (trace s ++ t)%list
              /\ creations t = map (fun r : Probed => name r) toFork
              /\ deletions t = [].
Proof.
  induction toFork as [|r rest IH]; intros i s s' H.
  - injection H as <-. exists []. now rewrite app_nil_r.
  - destruct (createIndependentRepository w (sourceName r) (name r) s)
      as [[b|e|c] s1] eqn:Ec.
    + destruct (createIndependentRepository_created w _ _ s s1 b Ec)
        as [t1 [E1 [C1 D1]]].
      destruct (fixTeamNames_total w (name r) s1) as [s2 [t2 [Ef [E2 F2]]]].
      rewrite (forkLoop_cons_created w i total r rest s s1 s2 b Ec Ef) in H.
      cbv zeta in H. apply IH in H. destruct H as [t [Et [Ct Dt]]].
      assert (Q2 : Forall quiet t2)
        by (revert F2; apply Forall_impl; apply fixEvent_quiet).
      destruct (quiet_trace _ Q2) as [C2 D2].
      exists (t1 ++ t2 ++ [Exec (GhActionsPermissions (name r) true)]
                ++ (if Nat.ltb i (total - 1) then [Sleep 5000] else []) ++ t)%list.
      split; [|split].
      * rewrite Et. destruct (Nat.ltb i (total - 1));
          cbn [trace log]; rewrite E2, E1; list_eq.
      * rewrite !creations_app, C1, C2, Ct.
        destruct (Nat.ltb i (total - 1)); reflexivity.
      * rewrite !deletions_app, D1, D2, Dt.
        destruct (Nat.ltb i (total - 1)); reflexivity.
    + rewrite (forkLoop_cons_throw w i total r rest s s1 e Ec) in H. discriminate.
    + now elim (createIndependentRepository_noExit w (sourceName r) (name r) s c);
        rewrite Ec.
Qed.

Lemma migrateAll_creations (w : World) (inp : Input) (results : list Probed)
    (s s' : St) :
  dryRun (args inp) = false ->
  migrateAll w inp results s = (Val tt, s') ->
  exists t, trace s' = (trace s ++ t)%list
            /\ creations t = map (fun r : Probed => name r) (filter isFork results)
            /\ deletions t = [].
Proof.
  intros Hd. unfold migrateAll. rewrite Hd. cbv zeta. cbn [negb].
  destruct (filter isFork results) as [|r l] eqn:Ef.
  - cbn. intros H. injection H as <-. exists []. now rewrite app_nil_r.
  - cbn [List.length Nat.eqb]. apply forkLoop_creations.
Qed.

(** X20. A run with [--yes] that ends with exit status 0 has created the
    repositories of the descriptors classified [fork], each of them once and
    in the order of the snapshot, and no other; and it has deleted none. *)
Theorem successful_run_creates_each_fork_once (w : World) (inp : Input) :
  dryRun (args inp) = false ->
  fst (run w inp) = 0 ->
  creations (snd (run w inp))
  = map (fun r : Probed => name r) (filter isFork (probed w inp))
  /\ deletions (snd (run w inp)) = [].
Proof.
  intros Hd H0.
  destruct (filteredOf inp) as [[|r0 f0]|] eqn:Ef.
  - rewrite (probed_empty w inp Ef). unfold run.
    rewrite (script_empty w inp Ef). auto.
  - remember (r0 :: f0) as f eqn:Hf.
    assert (Hne : f <> []) by (subst f; discriminate).
    destruct (probeLoop_spec w f [] false initial) as [rs [s1 [E [_ [Htr _]]]]].
    simpl in E, Htr.
    pose proof (probed_eq w inp f _ _ _ Ef E) as Hp.
    destruct (script_probed w inp f _ _ _ Ef Hne E) as [dir [_ Es]].
    destruct (run w inp) as [code tr] eqn:R. cbn [fst snd] in *. subst code.
    unfold run in R. rewrite Es in R. clear Es.
    destruct (existsb targetExists rs); [discriminate|].
    unfold bind at 1 2 in R.
    destruct (migrateAll w inp rs s1) as [[[]|e|c] s2] eqn:Em.
    + destruct (migrateAll_creations w inp rs s1 s2 Hd Em) as [t [Et [Ct Dt]]].
      destruct (quiet_trace _ (Forall_impl quiet isProbe_quiet (probesOf_isProbe f)))
        as [Cp Dp].
      unfold writeImport, bind, now, writeFileSync, ret in R.
      destruct (write_ok w s2 (pathJoin dir "import.tf")); [|discriminate].
      injection R as <-. cbn [trace log]. rewrite Et, Htr, Hp.
      rewrite !creations_app, !deletions_app, Cp, Dp, Ct, Dt.
      cbn [creations deletions flat_map app]. rewrite app_nil_r. auto.
    + discriminate.
    + apply migrateAll_exit in Em. subst c. discriminate.
  - rewrite (script_early_code w inp Ef) in H0. discriminate.
Qed.

Lemma successful_run_creates_each_fork_once_witness :
  let w := hosting ["cdktf-provider-aws"; "cdktf-provider-docker"] []
             nothingFails [] EmptyString in
  creations (snd (run w (input true (Parsed (snapshot [aws; tls; docker])))))
  = ["cdktn-provider-aws"; "cdktn-provider-docker"].
Proof.
  intros w.
  destruct (successful_run_creates_each_fork_once w
              (input true (Parsed (snapshot [aws; tls; docker]))))
    as [H _]; [reflexivity | vm_compute; reflexivity |].
  rewrite H. vm_compute. reflexivity.
Defined.

(** ** The pause between repositories *)

Lemma pauses_app (a b : list Event) : pauses (a ++ b) = pauses a + pauses b.
Proof. unfold pauses. now rewrite filter_app, length_app. Qed.

Lemma pauses_none (P : Event -> Prop) (t : list Event) :
  (forall e, P e -> isPause e = false) -> Forall P t -> pauses t = 0.
Proof.
  intros HP H. induction H as [|e t He _ IH]; [reflexivity|].
  unfold pauses in *. cbn [filter]. now rewrite (HP e He).
Qed.

Lemma createEvent_no_pause (src tgt : string) (e : Event) :
  createEvent src tgt e -> isPause e = false.
Proof.
  destruct e as [c| |ms]; simpl; auto. intros ->. reflexivity.
Qed.

Lemma fixEvent_no_pause (n : string) (e : Event) :
  fixEvent n e -> isPause e = false.
Proof. destruct e as [c| |ms]; simpl; auto. contradiction. Qed.

Lemma pauses_separated (segments : list (list Event)) :
  Forall (fun segment => pauses segment = 0) segments ->
  pauses (separated segments) = List.length segments - 1.
Proof.
  induction 1 as [|seg rest Hs _ IH]; [reflexivity|].
  cbn [separated]. destruct rest as [|seg' rest]; [cbn; lia|].
  rewrite pauses_app, Hs.
  change (Sleep 5000 :: separated (seg' :: rest))
    with ([Sleep 5000] ++ separated (seg' :: rest))%list.
  rewrite pauses_app, IH. cbn. lia.
Qed.

Lemma forkLoop_separated (w : World) (total : nat) (toFork : list Probed) :
  forall i s s',
    i + List.length toFork = total ->
    forkLoop w i total toFork s = (Val tt, s') ->
    exists segments,
      Forall2 migrationOf toFork segments
      /\ trace s' = (trace s ++ separated segments)%list.
Proof.
  induction toFork as [|r rest IH]; intros i s s' Hi H.
  - injection H as <-. exists []. split; [constructor | now rewrite app_nil_r].
  - destruct (createIndependentRepository w (sourceName r) (name r) s)
      as [[b|e|c] s1] eqn:Ec.
    + destruct (createIndependentRepository_emits w (sourceName r) (name r) s)
        as [t1' [E1' F1]].
      rewrite Ec in E1'. cbn [snd] in E1'.
      destruct (createIndependentRepository_created w _ _ s s1 b Ec)
        as [t1 [E1 [C1 _]]].
      assert (t1' = t1) by (rewrite E1 in E1'; now apply app_inv_head in E1').
      subst t1'.
      destruct (fixTeamNames_total w (name r) s1) as [s2 [t2 [Ef [E2 F2]]]].
      rewrite (forkLoop_cons_created w i total r rest s s1 s2 b Ec Ef) in H.
      cbv zeta in H. cbn [List.length] in Hi.
      apply IH in H; [|lia]. destruct H as [segs [Hsegs Et]].
      pose proof (pauses_none _ t1 (createEvent_no_pause _ _) F1) as P1.
      pose proof (pauses_none _ t2 (fixEvent_no_pause _) F2) as P2.
      assert (Q2 : Forall quiet t2)
        by (revert F2; apply Forall_impl; apply fixEvent_quiet).
      destruct (quiet_trace _ Q2) as [C2 _].
      set (seg := (t1 ++ t2 ++ [Exec (GhActionsPermissions (name r) true)])%list).
      assert (Hseg : migrationOf r seg).
      { unfold seg. split; [|split].
        - rewrite !pauses_app, P1, P2. reflexivity.
        - rewrite !creations_app, C1, C2. reflexivity.
        - exists (t1 ++ t2)%list. now rewrite <- app_assoc. }
      exists (seg :: segs). split; [now constructor|].
      assert (El : Nat.ltb i (total - 1)
                   = match rest with [] => false | _ :: _ => true end).
      { destruct rest; [apply Nat.ltb_ge | apply Nat.ltb_lt]; cbn in Hi; lia. }
      rewrite El in Et. rewrite Et. cbn [separated].
      destruct rest as [|r' rest].
      * inversion Hsegs; subst. cbn [trace log separated]. rewrite E2, E1.
        unfold seg. rewrite app_nil_r. list_eq.
      * inversion Hsegs as [|? seg' ? segs' ? ? Hx Hy]; subst.
        cbn [trace log]. rewrite E2, E1. unfold seg. list_eq.
    + rewrite (forkLoop_cons_throw w i total r rest s s1 e Ec) in H. discriminate.
    + now elim (createIndependentRepository_noExit w (sourceName r) (name r) s c);
        rewrite Ec.
Qed.

Lemma migrationOf_no_pause (toFork : list Probed) (segments : list (list Event)) :
  Forall2 migrationOf toFork segments ->
  Forall (fun segment => pauses segment = 0) segments
  /\ List.length segments = List.length toFork.
Proof.
  induction 1 as [|r seg l segs [Hp _] _ [IH1 IH2]]; [auto|].
  split; [now constructor | cbn; now rewrite IH2].
Qed.

(** X18. When the migration loop gets through all of [toFork], what it did is
    the migration of each repository in turn, with one pause of five seconds
    between the migration of a repository and that of the next, and none
    after the last: the migration of a repository creates it, holds no pause
    and ends with the request that enables its actions, and nothing follows
    the last migration.  So [n] repositories make [n - 1] pauses.  The waits
    of the polling loop are of two seconds and are not pauses. *)
Theorem one_pause_between_repositories (w : World) (toFork : list Probed)
    (s s' : St) :
  forkLoop w 0 (List.length toFork) toFork s = (Val tt, s') ->
  exists segments,
    Forall2 migrationOf toFork segments
    /\ trace s' = (trace s ++ separated segments)%list
    /\ pauses (separated segments) = List.length toFork - 1.
Proof.
  intros H.
  destruct (forkLoop_separated w (List.length toFork) toFork 0 s s' eq_refl H)
    as [segments [Hs Ht]].
  exists segments. split; [exact Hs | split; [exact Ht|]].
  destruct (migrationOf_no_pause toFork segments Hs) as [Hp <-].
  now apply pauses_separated.
Qed.

Lemma one_pause_between_repositories_witness :
  let toFork := [record aws true; record tls true; record docker true] in
  exists segments,
    Forall2 migrationOf toFork segments
    /\ trace (snd (forkLoop bare 0 3 toFork initial))
       = (trace initial ++ separated segments)%list
    /\ pauses (separated segments) = 2.
Proof.
  intros toFork.
  apply (one_pause_between_repositories bare toFork initial).
  vm_compute. reflexivity.
Defined.
